(** * ndaValidator: the data-element search component

    A shallow embedding of the two revisions of [DataElementSearch]: the
    edit-distance scorer of the first revision and the pattern search
    (batch retrieval, match aggregation, search orchestration) of the
    second one. *)

From Stdlib Require Import ZArith Lia Ascii String PrimFloat Uint63.
From stdpp Require Import base option list strings sorting.

Set Warnings "-inexact-float".

Local Open Scope string_scope.
Local Open Scope list_scope.
Local Open Scope nat_scope.

(** ** JavaScript strings

    A string is a sequence of code units; the model keeps the code units
    below 256 (Latin-1), which covers element names, descriptions and
    queries of the data dictionary. *)

Module Js.

Definition codeOf (c : ascii) : nat := nat_of_ascii c.

Definition between (lo hi n : nat) : bool := (lo <=? n)%nat && (n <=? hi)%nat.

(** [String.prototype.toLowerCase] on one code unit: A-Z, and the
    Latin-1 capitals U+00C0..U+00DE without the multiplication sign. *)
Definition toLowerChar (c : ascii) : ascii :=
  let n := codeOf c in
  if between 65 90 n || (between 192 222 n && negb (n =? 215)%nat)
  then ascii_of_nat (n + 32) else c.

Fixpoint toLowerCase (s : string) : string :=
  match s with
  | EmptyString => EmptyString
  | String c r => String (toLowerChar c) (toLowerCase r)
  end.

Definition chars (s : string) : list ascii := list_ascii_of_string s.

(** [s.split("_")]: always at least one part. *)
Fixpoint split_underscore (s : string) : list string :=
  match s with
  | EmptyString => [EmptyString]
  | String c r =>
      if Ascii.eqb c "_" then EmptyString :: split_underscore r
      else match split_underscore r with
           | p :: ps => String c p :: ps
           | [] => [String c EmptyString]
           end
  end.

Definition startsWith (s p : string) : bool := String.prefix p s.

Fixpoint includes (s sub : string) : bool :=
  String.prefix sub s ||
  match s with
  | EmptyString => false
  | String _ r => includes r sub
  end.

Fixpoint endsWith_s (s : string) : bool :=
  match s with
  | EmptyString => false
  | String c EmptyString => Ascii.eqb c "s"
  | String _ r => endsWith_s r
  end.

(** [s.slice(0, -1)] *)
Fixpoint dropLast (s : string) : string :=
  match s with
  | EmptyString => EmptyString
  | String _ EmptyString => EmptyString
  | String c r => String c (dropLast r)
  end.

Definition isDigit (c : ascii) : bool := between 48 57 (codeOf c).

(** [s.match(/^\d+$/)] is not null *)
Definition allDigits (s : string) : bool :=
  match chars s with
  | [] => false
  | cs => forallb isDigit cs
  end.

(** White space and line terminators stripped by [trim]. *)
Definition isSpace (c : ascii) : bool :=
  let n := codeOf c in between 9 13 n || (n =? 32)%nat || (n =? 160)%nat.

Fixpoint trimStart (s : string) : string :=
  match s with
  | EmptyString => EmptyString
  | String c r => if isSpace c then trimStart r else s
  end.

Fixpoint trimEnd (s : string) : string :=
  match s with
  | EmptyString => EmptyString
  | String c r =>
      match trimEnd r with
      | EmptyString => if isSpace c then EmptyString else String c EmptyString
      | r' => String c r'
      end
  end.

Definition trim (s : string) : string := trimEnd (trimStart s).

(** [!s] for a string: only the empty string is falsy. *)
Definition isEmpty (s : string) : bool :=
  match s with EmptyString => true | _ => false end.

(** [x || dflt] for a possibly missing string field. *)
Definition orElse (x : option string) (dflt : string) : string :=
  match x with
  | Some s => if isEmpty s then dflt else s
  | None => dflt
  end.

(** A number read from a cell that may hold [null]: [null + 1] is [1]. *)
Definition num (x : option nat) : nat := default 0 x.

Definition ofNat (n : nat) : float := PrimFloat.of_uint63 (Uint63.of_Z (Z.of_nat n)).

(** [Math.min] on two numbers. *)
Definition Math_min (a b : float) : float :=
  if PrimFloat.is_nan a then a
  else if PrimFloat.is_nan b then b
  else if PrimFloat.ltb b a then b else a.

End Js.

(** ** Elements of a data structure

    An element as the structure detail of the service lists it: the name
    is always there, the type and the description may be missing. *)

Record Element := {
  name : string;
  type : option string;
  description : option string
}.

(** ** First revision: edit distance and token relevance *)

Module TokenScorer.

(** The table [track]: [str2.length + 1] rows of [str1.length + 1] cells,
    every cell [null] at first. *)
Abbreviation Track := (list (list (option nat))).

Definition cell (t : Track) (j i : nat) : option nat :=
  row ← t !! j; mjoin (row !! i).

(** [track[j][i] = v] *)
Definition store (t : Track) (j i v : nat) : Track :=
  alter (fun row => <[i := Some v]> row) j t.

Definition indicator (s1 s2 : list ascii) (i j : nat) : nat :=
  if decide (s1 !! (i - 1) = s2 !! (j - 1)) then 0 else 1.

Definition fillCell (s1 s2 : list ascii) (j : nat) (t : Track) (i : nat) : Track :=
  store t j i
    (Nat.min (Js.num (cell t j (i - 1)) + 1)
       (Nat.min (Js.num (cell t (j - 1) i) + 1)
                (Js.num (cell t (j - 1) (i - 1)) + indicator s1 s2 i j))).

Definition levenshteinDistance (str1 str2 : string) : option nat :=
  let s1 := Js.chars str1 in
  let s2 := Js.chars str2 in
  let n1 := length s1 in
  let n2 := length s2 in
  let track := replicate (n2 + 1) (replicate (n1 + 1) None) in
  let track := foldl (fun t i => store t 0 i i) track (seq 0 (n1 + 1)) in
  let track := foldl (fun t j => store t j 0 j) track (seq 0 (n2 + 1)) in
  let track :=
    foldl (fun t j => foldl (fillCell s1 s2 j) t (seq 1 n1)) track (seq 1 n2) in
  cell track n2 n1.

Definition partBonus (best : float) : float :=
  (if PrimFloat.eqb best 0 then 100
   else if PrimFloat.leb best 2 then 50 / best
   else 0)%float.

Definition bestPartDistance (searchPart : string) (elementParts : list string) : float :=
  foldl (fun best elementPart =>
           Js.Math_min best (Js.ofNat (Js.num (levenshteinDistance searchPart elementPart))))
        infinity elementParts.

Definition calculateRelevance (element : Element) (searchTerm : string) : float :=
  let elementName := Js.toLowerCase (name element) in
  let searchTermLower := Js.toLowerCase searchTerm in
  let elementParts := Js.split_underscore elementName in
  let searchParts := Js.split_underscore searchTermLower in
  if String.eqb elementName searchTermLower then 1000%float
  else
    let score :=
      foldl (fun score searchPart =>
               score + partBonus (bestPartDistance searchPart elementParts))%float
            0%float searchParts in
    let score :=
      if Js.startsWith elementName (searchTermLower ++ "_")
      then (score + 500)%float else score in
    let score :=
      if Js.allDigits elementName || Js.allDigits searchTermLower
      then (score * 0.1)%float else score in
    let score :=
      if negb (Js.includes elementName searchTermLower)
      then (score * 0.1)%float else score in
    score.

(** The recurrence that the table implements, on the two strings read
    from their last character backwards; the proofs relate every cell of
    [track] to it. *)
Fixpoint lev (s t : list ascii) : nat :=
  match s with
  | [] => length t
  | a :: s' =>
      (fix lev_s (t : list ascii) : nat :=
         match t with
         | [] => length s
         | b :: t' =>
             Nat.min (lev s' t + 1)
               (Nat.min (lev_s t' + 1)
                        (lev s' t' + (if decide (a = b) then 0 else 1)))
         end) t
  end.

(** The stages of [levenshteinDistance] and the invariant that relates
    the table to [lev]: [D j i] is the value [track[j][i]] must hold. *)
Section Table.
Context (s1 s2 : list ascii).

Definition D (j i : nat) : nat := lev (rev (take i s1)) (rev (take j s2)).

Definition shape (t : Track) : Prop :=
  length t = length s2 + 1 ∧
  ∀ j row, t !! j = Some row → length row = length s1 + 1.

Definition known (t : Track) (R : nat → nat → Prop) : Prop :=
  ∀ j i, R j i → cell t j i = Some (D j i).

Definition blank : Track :=
  replicate (length s2 + 1) (replicate (length s1 + 1) None).

Definition afterRow0 : Track :=
  foldl (fun t i => store t 0 i i) blank (seq 0 (length s1 + 1)).

Definition afterCol0 : Track :=
  foldl (fun t j => store t j 0 j) afterRow0 (seq 0 (length s2 + 1)).

Definition afterFill : Track :=
  foldl (fun t j => foldl (fillCell s1 s2 j) t (seq 1 (length s1)))
        afterCol0 (seq 1 (length s2)).

Definition border (j i : nat) : Prop :=
  (j = 0 ∧ i ≤ length s1) ∨ (i = 0 ∧ j ≤ length s2).

(** Rows below [J] are complete, and so is column 0. *)
Definition rowsDone (J : nat) (j i : nat) : Prop :=
  (j < J ∧ i ≤ length s1) ∨ (i = 0 ∧ j ≤ length s2).

End Table.

End TokenScorer.


(** ** Regular expressions

    [new RegExp(source, "i").test(text)] for the sources made of literal
    characters, the wildcard [.] and the assertion [\b]. Any other syntax
    character (quantifiers, groups, classes, alternation, anchors, other
    escapes) is outside this fragment and [test] answers [None] for it. *)

Module RegExp.

Inductive Atom :=
| WordBoundary
| AnyChar
| Literal (c : ascii).

Definition isSyntaxChar (c : ascii) : bool :=
  existsb (Ascii.eqb c) (Js.chars "^$\.*+?()[]{}|").

Fixpoint parse (p : list ascii) : option (list Atom) :=
  match p with
  | [] => Some []
  | c :: r =>
      if Ascii.eqb c "\" then
        match r with
        | b :: r' => if Ascii.eqb b "b" then cons WordBoundary <$> parse r' else None
        | [] => None
        end
      else if Ascii.eqb c "." then cons AnyChar <$> parse r
      else if isSyntaxChar c then None
      else cons (Literal c) <$> parse r
  end.

(** Canonicalize of the ignore-case flag: the upper-case form of a code
    unit when that is again a single Latin-1 code unit. *)
Definition canonicalize (c : ascii) : ascii :=
  let n := Js.codeOf c in
  if Js.between 97 122 n || (Js.between 224 254 n && negb (n =? 247))
  then ascii_of_nat (n - 32) else c.

(** [\w] *)
Definition isWordChar (c : ascii) : bool :=
  let n := Js.codeOf c in
  Js.between 48 57 n || Js.between 65 90 n || Js.between 97 122 n || (n =? 95).

Definition isLineTerminator (c : ascii) : bool :=
  let n := Js.codeOf c in (n =? 10) || (n =? 13).

Definition isWordAt (c : option ascii) : bool :=
  match c with
  | Some c => isWordChar c
  | None => false
  end.

(** Match the atoms at one position: [prev] is the character before the
    position, [rest] the text from the position on. *)
Fixpoint matchHere (atoms : list Atom) (prev : option ascii) (rest : list ascii) : bool :=
  match atoms with
  | [] => true
  | WordBoundary :: atoms' =>
      xorb (isWordAt prev) (isWordAt (head rest)) && matchHere atoms' prev rest
  | AnyChar :: atoms' =>
      match rest with
      | c :: r => negb (isLineTerminator c) && matchHere atoms' (Some c) r
      | [] => false
      end
  | Literal x :: atoms' =>
      match rest with
      | c :: r => Ascii.eqb (canonicalize c) (canonicalize x) && matchHere atoms' (Some c) r
      | [] => false
      end
  end.

(** Try every start position from the left. *)
Fixpoint searchFrom (atoms : list Atom) (prev : option ascii) (rest : list ascii) : bool :=
  matchHere atoms prev rest ||
  match rest with
  | c :: r => searchFrom atoms (Some c) r
  | [] => false
  end.

Definition test (source text : string) : option bool :=
  atoms ← parse (Js.chars source);
  Some (searchFrom atoms None (Js.chars text)).

(** The regular-expression engine of the runtime, as the component uses
    it: source and text to the answer of [test]. *)
Definition Engine := string → string → bool.

(** An engine that follows the semantics above on the fragment. *)
Definition implements (rx : Engine) : Prop :=
  ∀ source text b, test source text = Some b → rx source text = b.

Definition fragmentEngine : Engine :=
  fun source text => default false (test source text).

(** [word] stands in [text] as a whole word, compared without case:
    [text] splits into [before ++ found ++ after] with a word boundary on
    both sides of [found]. *)
Definition boundaryBetween (before after : list ascii) : bool :=
  xorb (isWordAt (last before)) (isWordAt (head after)).

Definition occursAsWord (word text : list ascii) : Prop :=
  ∃ before found after,
    text = before ++ found ++ after ∧
    map canonicalize found = map canonicalize word ∧
    boundaryBetween before (found ++ after) = true ∧
    boundaryBetween (before ++ found) after = true.

End RegExp.


(** ** Maps and arrays *)

(** A [Map]: keys in insertion order; [set] on a present key replaces the
    value in place. *)
Module JsMap.

Abbreviation t V := (list (string * V)).

Definition empty {V} : t V := [].

Fixpoint set {V} (m : t V) (k : string) (v : V) : t V :=
  match m with
  | [] => [(k, v)]
  | (k', v') :: r =>
      if String.eqb k k' then (k, v) :: r else (k', v') :: set r k v
  end.

Fixpoint get {V} (m : t V) (k : string) : option V :=
  match m with
  | [] => None
  | (k', v') :: r => if String.eqb k k' then Some v' else get r k
  end.

Definition has {V} (m : t V) (k : string) : bool :=
  match get m k with Some _ => true | None => false end.

Definition keys {V} (m : t V) : list string := map fst m.

Definition values {V} (m : t V) : list V := map snd m.

Definition size {V} (m : t V) : nat := length m.

End JsMap.

Module JsArray.

(** [after x y]: the comparator answers a positive number for [(x, y)],
    so [x] belongs after [y]. *)
Fixpoint insertBy {A} (after : A → A → bool) (x : A) (l : list A) : list A :=
  match l with
  | [] => [x]
  | y :: r => if after x y then y :: insertBy after x r else x :: y :: r
  end.

(** [Array.prototype.sort(compare)]: the language requires the sort to be
    stable and leaves the algorithm open; insertion sort is one such
    algorithm. *)
Definition sort {A} (after : A → A → bool) (l : list A) : list A :=
  foldr (insertBy after) [] l.

(** [[...new Set(l)]]: first occurrences, in order. *)
Definition unique (l : list string) : list string :=
  foldl (fun seen x => if bool_decide (x ∈ seen) then seen else seen ++ [x]) [] l.

(** The slices [l.slice(i, i + size)] for [i = 0, size, 2 size, ... < l.length]. *)
Definition slices (size : nat) (l : list string) : list (list string) :=
  map (fun k => take size (drop (k * size) l))
      (seq 0 ((length l + (size - 1)) / size)).

End JsArray.

(** ** The data dictionary service *)

Module Api.

Record ElementDetail := {
  ed_name : string;
  ed_type : option string;
  ed_description : option string;
  ed_notes : option string;
  ed_valueRange : option string;
  ed_dataStructures : list string
}.

Record StructureSummary := {
  shortName : string;
  title : option string;
  category : option string
}.

Record StructureDetail := { dataElements : option (list Element) }.

(** One hit of the full-text element search. *)
Record SearchHit := {
  hit_name : string;
  hit_type : option string;
  hit_dataStructures : option (list StructureSummary);
  hit_score : option float
}.

Inductive Outcome (A : Type) :=
| Ok (body : A)                (* response.ok, and the body parsed *)
| NotOk                        (* a response with a failure status *)
| Failed (message : string).   (* fetch rejected, or json() threw *)
Arguments Ok {A} body.
Arguments NotOk {A}.
Arguments Failed {A} message.

Inductive Req : Type → Type :=
| GetDataElement (name : string) : Req ElementDetail
| SearchElements (query : string) : Req (option (list SearchHit))
| SearchStructures (searchTerm : string) : Req (list (option StructureSummary))
| ListCategory (category : string) : Req (list (option StructureSummary))
| GetDataStructure (shortName : string) : Req StructureDetail
| Sleep (ms : nat) : Req unit.

(** The service: an answer for every request. *)
Definition Server := ∀ A, Req A → Outcome A.

Inductive Call :=
| call (A : Type) (req : Req A).
Arguments call {A} req.

Definition isStructureFetch (shortName : string) (c : Call) : bool :=
  match c with
  | call (GetDataStructure s) => String.eqb s shortName
  | call _ => false
  end.

(** How many times the detail of structure [shortName] was requested. *)
Definition structureFetches (shortName : string) (log : list Call) : nat :=
  length (filter (fun c => isStructureFetch shortName c = true) log).

End Api.

(** ** Asynchronous handlers *)

Module Async.
Import Api.

Section Tasks.
Context {St : Type}.

(** An [async] function of a component with state [St]: it updates the
    state, suspends at [await fetch(...)] or [await Promise.all([...])],
    and returns. State is only written, never read: a handler sees the
    values of the render that created it. *)
Inductive Task (R : Type) : Type :=
| Ret (r : R)
| Upd (f : St → St) (k : Task R)
| Fetch {A : Type} (req : Req A) (k : Outcome A → Task R)
| FetchAll {A : Type} (reqs : list (Req A)) (k : list (Outcome A) → Task R).
Arguments Ret {R} r.
Arguments Upd {R} f k.
Arguments Fetch {R A} req k.
Arguments FetchAll {R A} reqs k.

Fixpoint bind {R S} (t : Task R) (f : R → Task S) : Task S :=
  match t with
  | Ret r => f r
  | Upd g k => Upd g (bind k f)
  | Fetch req k => Fetch req (fun o => bind (k o) f)
  | FetchAll reqs k => FetchAll reqs (fun os => bind (k os) f)
  end.

Definition upd (f : St → St) : Task unit := Upd f (Ret tt).
Definition fetch {A} (req : Req A) : Task (Outcome A) := Fetch req Ret.
Definition skip : Task unit := Ret tt.

(** Run a task to completion on its own: the value it returns, the state
    it leaves, and the requests it sent, oldest first. *)
Fixpoint exec {R} (server : Server) (t : Task R) (st : St) (log : list Call)
  : R * St * list Call :=
  match t with
  | Ret r => (r, st, log)
  | Upd f k => exec server k (f st) log
  | Fetch req k => exec server (k (server _ req)) st (log ++ [call req])
  | FetchAll reqs k =>
      exec server (k (map (server _) reqs)) st (log ++ map call reqs)
  end.

Fixpoint result {R} (server : Server) (t : Task R) : R :=
  match t with
  | Ret r => r
  | Upd _ k => result server k
  | Fetch req k => result server (k (server _ req))
  | FetchAll reqs k => result server (k (map (server _) reqs))
  end.

Definition finalState {R} (server : Server) (t : Task R) (st : St) : St :=
  snd (fst (exec server t st [])).

(** The synchronous part of a task: every update up to the next [await]. *)
Fixpoint runSync {R} (t : Task R) (st : St) : St * Task R :=
  match t with
  | Upd f k => runSync k (f st)
  | _ => (st, t)
  end.

(** The awaited responses arrive and the task runs on to its next [await]. *)
Definition resume {R} (server : Server) (t : Task R) (st : St) : St * Task R :=
  match t with
  | Fetch req k => runSync (k (server _ req)) st
  | FetchAll reqs k => runSync (k (map (server _) reqs)) st
  | _ => (st, t)
  end.

Definition settled {R} (t : Task R) : bool :=
  match t with Ret _ => true | _ => false end.

(** The requests a suspended task is waiting for. *)
Definition awaiting {R} (t : Task R) : list Call :=
  match t with
  | Fetch req _ => [call req]
  | FetchAll reqs _ => map call reqs
  | _ => []
  end.

(** One element of [list.map(async (x) => ...)]: a promise that is already
    resolved, or one that waits for a fetch. *)
Inductive Promise (A B : Type) :=
| Resolved (b : B)
| Pending (req : Req A) (k : Outcome A → B).
Arguments Resolved {A B} b.
Arguments Pending {A B} req k.

Definition pendingRequests {A B} (promises : list (Promise A B)) : list (Req A) :=
  omap (fun p => match p with Resolved _ => None | Pending req _ => Some req end) promises.

(** The values of the promises, in the order of the promises, once the
    responses to the pending requests are in. *)
Fixpoint settle {A B} (promises : list (Promise A B)) (responses : list (Outcome A)) : list B :=
  match promises with
  | [] => []
  | Resolved b :: ps => b :: settle ps responses
  | Pending _ k :: ps =>
      match responses with
      | o :: os => k o :: settle ps os
      | [] => []
      end
  end.

(** [await Promise.all(promises)] *)
Definition Promise_all {A B} (promises : list (Promise A B)) : Task (list B) :=
  FetchAll (pendingRequests promises) (fun responses => Ret (settle promises responses)).

End Tasks.

Arguments Task : clear implicits.
Arguments Ret {St R} r.
Arguments Upd {St R} f k.
Arguments Fetch {St R A} req k.
Arguments FetchAll {St R A} reqs k.
Arguments Resolved {A B} b.
Arguments Pending {A B} req k.

#[export] Instance task_ret {St} : MRet (Task St) := @Ret St.
#[export] Instance task_bind {St} : MBind (Task St) := fun R S f t => bind t f.

(** Two searches of one component in flight: [first] and [second] name
    the task whose awaited responses arrive next. *)
Inductive Arrival := first | second.

Definition deliver {St R} (server : Server) (a : Arrival)
    (c : St * Task St R * Task St R) : St * Task St R * Task St R :=
  let '(st, t1, t2) := c in
  match a with
  | first => let (st', t1') := resume server t1 st in (st', t1', t2)
  | second => let (st', t2') := resume server t2 st in (st', t1, t2')
  end.

End Async.

(** ** First revision: search through the full-text service *)

Module ApiSearch.
Import Api Async.

Inductive MatchType := nameMatch | descriptionMatch.

Record StructureRef := {
  ref_shortName : string;
  ref_title : string;
  ref_category : string
}.

Record Match := {
  m_name : string;
  m_type : string;
  m_description : string;
  m_notes : option string;
  m_dataStructures : list StructureRef;
  total_data_structures : nat;
  _score : option float;
  searchTerms : list string;
  m_matchType : MatchType
}.

Record State := {
  searchTerm : string;
  loading : bool;
  error : option string;
  element : option ElementDetail;
  matchingElements : list Match;
  isPartialSearch : bool;
  recentSearches : list string
}.

Definition setLoading (v : bool) (s : State) : State :=
  {| searchTerm := searchTerm s; loading := v; error := error s;
     element := element s; matchingElements := matchingElements s;
     isPartialSearch := isPartialSearch s; recentSearches := recentSearches s |}.

Definition setError (v : option string) (s : State) : State :=
  {| searchTerm := searchTerm s; loading := loading s; error := v;
     element := element s; matchingElements := matchingElements s;
     isPartialSearch := isPartialSearch s; recentSearches := recentSearches s |}.

Definition setElement (v : option ElementDetail) (s : State) : State :=
  {| searchTerm := searchTerm s; loading := loading s; error := error s;
     element := v; matchingElements := matchingElements s;
     isPartialSearch := isPartialSearch s; recentSearches := recentSearches s |}.

Definition setMatchingElements (v : list Match) (s : State) : State :=
  {| searchTerm := searchTerm s; loading := loading s; error := error s;
     element := element s; matchingElements := v;
     isPartialSearch := isPartialSearch s; recentSearches := recentSearches s |}.

Definition setIsPartialSearch (v : bool) (s : State) : State :=
  {| searchTerm := searchTerm s; loading := loading s; error := error s;
     element := element s; matchingElements := matchingElements s;
     isPartialSearch := v; recentSearches := recentSearches s |}.

(** [setRecentSearches((prev) => f(prev))] *)
Definition setRecentSearches (f : list string → list string) (s : State) : State :=
  {| searchTerm := searchTerm s; loading := loading s; error := error s;
     element := element s; matchingElements := matchingElements s;
     isPartialSearch := isPartialSearch s; recentSearches := f (recentSearches s) |}.

Definition quote : string := String "034" EmptyString.

Definition noMatchMessage (searchTerm : string) : string :=
  ("No data elements found containing " ++ quote ++ searchTerm ++ quote)%string.

Definition searchErrorMessage (message : string) : string :=
  ("Error searching for elements: " ++ message)%string.

(** [recentSearches] is the list of the render that created the handler. *)
Definition updateRecentSearches (recentSearches : list string) (newTerm : string)
  : Task State unit :=
  if negb (bool_decide (newTerm ∈ recentSearches))
  then upd (setRecentSearches (fun prev => take 10 (newTerm :: prev)))
  else skip.

(** [x._score || 0] *)
Definition scoreOrZero (x : Match) : float :=
  match _score x with
  | Some v => if PrimFloat.is_nan v || PrimFloat.eqb v 0 then 0%float else v
  | None => 0%float
  end.

(** [(a, b) => (b._score || 0) - (a._score || 0)] is positive. *)
Definition lowerScore (a b : Match) : bool :=
  PrimFloat.ltb 0 (scoreOrZero b - scoreOrZero a).

Definition elementDetail (searchQuery : string) (result : SearchHit)
  : Promise ElementDetail (option Match) :=
  Pending (GetDataElement (hit_name result)) (fun response =>
    match response with
    | Ok fullData =>
        Some {|
          m_name := hit_name result;
          m_type := Js.orElse (ed_type fullData) (Js.orElse (hit_type result) "Text");
          m_description := Js.orElse (ed_description fullData) "No description available";
          m_notes := ed_notes fullData;
          m_dataStructures :=
            default []
              (map (fun ds => {| ref_shortName := shortName ds;
                                 ref_title := Js.orElse (title ds) "";
                                 ref_category := Js.orElse (category ds) "" |})
                 <$> hit_dataStructures result);
          total_data_structures := default 0 (length <$> hit_dataStructures result);
          _score := hit_score result;
          searchTerms := [searchQuery];
          m_matchType :=
            if Js.includes (Js.toLowerCase (hit_name result)) (Js.toLowerCase searchQuery)
            then nameMatch else descriptionMatch
        |}
    | NotOk => None
    | Failed _ => None
    end).

Definition handleSearch (view : State) : Task State unit :=
  let searchTerm := searchTerm view in
  if Js.isEmpty (Js.trim searchTerm) then mret tt
  else
    upd (setLoading true);;
    upd (setError None);;
    upd (setElement None);;
    upd (setMatchingElements []);;
    upd (setIsPartialSearch false);;
    directResponse ← fetch (GetDataElement (Js.trim searchTerm));
    match directResponse with
    | Ok data =>
        upd (setElement (Some data));;
        updateRecentSearches (recentSearches view) (Js.trim searchTerm);;
        upd (setLoading false);;
        upd (setLoading false)
    | NotOk =>
        let searchQuery := Js.trim searchTerm in
        partialResponse ← fetch (SearchElements searchQuery);
        match partialResponse with
        | Ok searchResults =>
            match searchResults with
            | Some (result :: results) =>
                elementDetails ←
                  Promise_all (map (elementDetail searchQuery) (result :: results));
                let validElements :=
                  JsArray.sort lowerScore (omap id elementDetails) in
                upd (setMatchingElements validElements);;
                upd (setIsPartialSearch true);;
                updateRecentSearches (recentSearches view) (Js.trim searchTerm);;
                upd (setLoading false)
            | _ =>
                upd (setError (Some (noMatchMessage searchTerm)));;
                upd (setLoading false);;
                upd (setLoading false)
            end
        | NotOk =>
            upd (setError (Some (searchErrorMessage "Failed to fetch matching elements")));;
            upd (setLoading false)
        | Failed message =>
            upd (setError (Some (searchErrorMessage message)));;
            upd (setLoading false)
        end
    | Failed message =>
        upd (setError (Some (searchErrorMessage message)));;
        upd (setLoading false)
    end.

End ApiSearch.

(** ** Second revision: pattern search *)

Module PatternSearch.
Import Api Async.

Inductive MatchType := both | nameOnly | descriptionOnly.

Record MatchRecord := {
  mr_name : string;
  mr_type : string;
  mr_description : string;
  structure : string;
  matchType : MatchType;
  relevance : Z
}.

(** *** Component state *)

Record LoadingState := {
  isLoading : bool;
  currentBatch : nat;
  totalBatches : nat;
  matchesFound : nat
}.

Record State := {
  searchTerm : string;
  loading : bool;
  error : option string;
  element : option ElementDetail;
  recentSearches : list string;
  matchingElements : list MatchRecord;
  isPartialSearch : bool;
  loadingState : LoadingState
}.

Definition setSearchTerm (v : string) (s : State) : State :=
  {| searchTerm := v; loading := loading s; error := error s;
     element := element s; recentSearches := recentSearches s;
     matchingElements := matchingElements s;
     isPartialSearch := isPartialSearch s; loadingState := loadingState s |}.

Definition setLoading (v : bool) (s : State) : State :=
  {| searchTerm := searchTerm s; loading := v; error := error s;
     element := element s; recentSearches := recentSearches s;
     matchingElements := matchingElements s;
     isPartialSearch := isPartialSearch s; loadingState := loadingState s |}.

Definition setError (v : option string) (s : State) : State :=
  {| searchTerm := searchTerm s; loading := loading s; error := v;
     element := element s; recentSearches := recentSearches s;
     matchingElements := matchingElements s;
     isPartialSearch := isPartialSearch s; loadingState := loadingState s |}.

Definition setElement (v : option ElementDetail) (s : State) : State :=
  {| searchTerm := searchTerm s; loading := loading s; error := error s;
     element := v; recentSearches := recentSearches s;
     matchingElements := matchingElements s;
     isPartialSearch := isPartialSearch s; loadingState := loadingState s |}.

(** [setRecentSearches((prev) => f(prev))] *)
Definition setRecentSearches (f : list string → list string) (s : State) : State :=
  {| searchTerm := searchTerm s; loading := loading s; error := error s;
     element := element s; recentSearches := f (recentSearches s);
     matchingElements := matchingElements s;
     isPartialSearch := isPartialSearch s; loadingState := loadingState s |}.

Definition setMatchingElements (v : list MatchRecord) (s : State) : State :=
  {| searchTerm := searchTerm s; loading := loading s; error := error s;
     element := element s; recentSearches := recentSearches s;
     matchingElements := v;
     isPartialSearch := isPartialSearch s; loadingState := loadingState s |}.

Definition setIsPartialSearch (v : bool) (s : State) : State :=
  {| searchTerm := searchTerm s; loading := loading s; error := error s;
     element := element s; recentSearches := recentSearches s;
     matchingElements := matchingElements s;
     isPartialSearch := v; loadingState := loadingState s |}.

(** [setLoadingState((prev) => f(prev))] *)
Definition setLoadingState (f : LoadingState → LoadingState) (s : State) : State :=
  {| searchTerm := searchTerm s; loading := loading s; error := error s;
     element := element s; recentSearches := recentSearches s;
     matchingElements := matchingElements s;
     isPartialSearch := isPartialSearch s; loadingState := f (loadingState s) |}.

(** What the page shows of a search: everything but the input box, the
    history and the progress counters. *)
Definition display (s : State)
  : bool * option string * option ElementDetail * list MatchRecord * bool :=
  (loading s, error s, element s, matchingElements s, isPartialSearch s).

(** [rx] is the regular-expression engine of the runtime. It answers
    every test: a query whose pattern does not compile makes
    [new RegExp] throw, and the [catch] of [findElementsByPattern] then
    returns the records found up to there; such queries are outside the
    model. *)
Section WithEngine.
Context (rx : RegExp.Engine).

(** *** The match aggregator *)

Definition containsWord (text word : string) : bool :=
  rx ("\b" ++ word ++ "\b")%string text.

Definition calculateRelevance (element : Element) (searchTerm : string)
    (matchType : MatchType) : Z :=
  let score := 0%Z in
  let score :=
    match matchType with
    | both => (score + 100)%Z
    | nameOnly => (score + 75)%Z
    | descriptionOnly => (score + 25)%Z
    end in
  let score :=
    if String.eqb (Js.toLowerCase (name element)) searchTerm
    then (score + 50)%Z else score in
  let score :=
    if Js.startsWith (Js.toLowerCase (name element)) searchTerm
    then (score + 25)%Z else score in
  let lengthDiff :=
    Z.abs (Z.of_nat (String.length (name element)) - Z.of_nat (String.length searchTerm)) in
  (score - Z.min lengthDiff 10)%Z.

Definition searchWords (searchTerm : string) : list string :=
  if Js.endsWith_s searchTerm
  then [searchTerm; Js.dropLast searchTerm]
  else [searchTerm; (searchTerm ++ "s")%string].

Definition classify (nameMatch descMatch : bool) : MatchType :=
  if nameMatch && descMatch then both
  else if nameMatch then nameOnly
  else descriptionOnly.

Definition nameMatches (searchTerm : string) (element : Element) : bool :=
  existsb (fun word => containsWord (Js.toLowerCase (name element)) word)
          (searchWords searchTerm).

Definition descMatches (searchTerm : string) (element : Element) : bool :=
  existsb (fun word =>
             containsWord (Js.toLowerCase (Js.orElse (description element) "")) word)
          (searchWords searchTerm).

(** The record that [foundElements.set(element.name, {...})] stores. *)
Definition matchRecord (searchTerm shortName : string) (element : Element) : MatchRecord :=
  let nameMatch := nameMatches searchTerm element in
  let descMatch := descMatches searchTerm element in
  {| mr_name := name element;
     mr_type := Js.orElse (type element) "Unknown";
     mr_description := Js.orElse (description element) "No description available";
     structure := shortName;
     matchType := classify nameMatch descMatch;
     relevance := calculateRelevance element searchTerm (classify nameMatch descMatch) |}.

(** The body of [elements.forEach((element) => ...)]. *)
Definition scanElement (searchTerm shortName : string)
    (foundElements : JsMap.t MatchRecord) (element : Element) : JsMap.t MatchRecord :=
  if nameMatches searchTerm element || descMatches searchTerm element
  then JsMap.set foundElements (name element) (matchRecord searchTerm shortName element)
  else foundElements.

(** The body of [batchResults.forEach(({ shortName, elements }) => ...)]. *)
Definition scanBatch (searchTerm : string) (foundElements : JsMap.t MatchRecord)
    (batchResults : list (string * list Element)) : JsMap.t MatchRecord :=
  foldl (fun found '(shortName, elements) =>
           foldl (scanElement searchTerm shortName) found elements)
        foundElements batchResults.

(** [(a, b) => b.relevance - a.relevance] is positive. *)
Definition lowerRelevance (a b : MatchRecord) : bool :=
  (0 <? relevance b - relevance a)%Z.

(** The aggregator on its own: every retrieved structure scanned into an
    empty map, and the values sorted. *)
Definition aggregate (searchTerm : string)
    (elementsByStructure : list (string * list Element)) : list MatchRecord :=
  JsArray.sort lowerRelevance
    (JsMap.values (scanBatch searchTerm JsMap.empty elementsByStructure)).

(** The records in the order in which the scan writes them. *)
Definition writes (searchTerm : string)
    (elementsByStructure : list (string * list Element)) : list MatchRecord :=
  flat_map (fun '(shortName, elements) =>
              map (matchRecord searchTerm shortName)
                  (filter (fun e => nameMatches searchTerm e || descMatches searchTerm e = true)
                          elements))
           elementsByStructure.

(** The store of one record under its name, and the last record written
    under the name [n] in a sequence of writes. *)
Definition storeRecord (found : JsMap.t MatchRecord) (r : MatchRecord) : JsMap.t MatchRecord :=
  JsMap.set found (mr_name r) r.

(** The map after a sequence of writes. *)
Definition afterWrites (found : JsMap.t MatchRecord) (ws : list MatchRecord)
  : JsMap.t MatchRecord := foldl storeRecord found ws.

(** Every record is stored under its own name. *)
Definition namedRight (m : JsMap.t MatchRecord) : Prop :=
  ∀ k r, (k, r) ∈ m → mr_name r = k.

Fixpoint lastWrite (n : string) (ws : list MatchRecord) : option MatchRecord :=
  match ws with
  | [] => None
  | r :: rest =>
      match lastWrite n rest with
      | Some r' => Some r'
      | None => if String.eqb n (mr_name r) then Some r else None
      end
  end.

Definition descending (l : list MatchRecord) : Prop :=
  StronglySorted (fun a b => (relevance b ≤ relevance a)%Z) l.

Definition withRelevance (v : Z) (l : list MatchRecord) : list MatchRecord :=
  filter (fun r => relevance r = v) l.

(** *** Batch retrieval *)

Definition BatchResult := option (string * list Element).
Definition CacheWrite := option (string * list Element).

(** One element of [batch.map(async (shortName) => ...)]; the value
    carries the entry the callback adds to the cache. *)
Definition fetchStructure (structureCache : JsMap.t (list Element)) (shortName : string)
  : Promise StructureDetail (BatchResult * CacheWrite) :=
  match JsMap.get structureCache shortName with
  | Some elements => Resolved (Some (shortName, elements), None)
  | None =>
      Pending (GetDataStructure shortName) (fun response =>
        match response with
        | Ok data =>
            (Some (shortName, default [] (dataElements data)),
             match dataElements data with
             | Some elements =>
                 if length elements <? 1000 then Some (shortName, elements) else None
             | None => None
             end)
        | NotOk => (None, None)
        | Failed _ => (None, None)
        end)
  end.

(** The cache entries added by the callbacks of one batch. *)
Definition applyCacheWrites (structureCache : JsMap.t (list Element))
    (cacheWrites : list CacheWrite) : JsMap.t (list Element) :=
  foldl (fun cache w =>
           match w with
           | Some (shortName, elements) => JsMap.set cache shortName elements
           | None => cache
           end) structureCache cacheWrites.

Definition progress (batchIndex matches : nat) (prev : LoadingState) : LoadingState :=
  {| isLoading := isLoading prev; currentBatch := batchIndex + 1;
     totalBatches := totalBatches prev; matchesFound := matches |}.

Definition withTotalBatches (n : nat) (prev : LoadingState) : LoadingState :=
  {| isLoading := isLoading prev; currentBatch := currentBatch prev;
     totalBatches := n; matchesFound := matchesFound prev |}.

Definition notLoading (prev : LoadingState) : LoadingState :=
  {| isLoading := false; currentBatch := currentBatch prev;
     totalBatches := totalBatches prev; matchesFound := matchesFound prev |}.

Definition startLoading (prev : LoadingState) : LoadingState :=
  {| isLoading := true; currentBatch := 0; totalBatches := 0; matchesFound := 0 |}.

(** The loop [for (batchIndex = 0; batchIndex < batches.length; batchIndex++)],
    from [batchIndex] on; [total] is [batches.length]. Every cache lookup of
    a batch runs before the first response of that batch is handled. *)
Fixpoint processBatches (searchTerm : string) (total : nat)
    (batches : list (list string)) (batchIndex : nat)
    (foundElements : JsMap.t MatchRecord)
    (structureCache : JsMap.t (list Element)) : Task State (JsMap.t MatchRecord) :=
  match batches with
  | [] => mret foundElements
  | batch :: rest =>
      upd (setLoadingState (progress batchIndex (JsMap.size foundElements)));;
      outcomes ← Promise_all (map (fetchStructure structureCache) batch);
      let structureCache := applyCacheWrites structureCache (map snd outcomes) in
      let batchResults := omap fst outcomes in
      let foundElements := scanBatch searchTerm foundElements batchResults in
      (if batchIndex <? total - 1 then fetch (Sleep 20);; mret tt else skip);;
      processBatches searchTerm total rest (S batchIndex) foundElements structureCache
  end.

(** [Promise.all] of the two searches and of the [json()] of the
    successful ones: [None] when one of them throws. *)
Fixpoint structureArrays (responses : list (Outcome (list (option StructureSummary))))
  : option (list (list (option StructureSummary))) :=
  match responses with
  | [] => Some []
  | Ok body :: rest => cons body <$> structureArrays rest
  | NotOk :: rest => structureArrays rest
  | Failed _ :: rest => None
  end.

Definition batchSize : nat := 25.

Definition findElementsByPattern (term : string) : Task State (list MatchRecord) :=
  let searchTerm := Js.toLowerCase term in
  let foundElements : JsMap.t MatchRecord := JsMap.empty in
  let structureCache : JsMap.t (list Element) := JsMap.empty in
  upd (setLoadingState startLoading);;
  responses ← FetchAll [SearchStructures searchTerm; ListCategory "cognitive_task"] Ret;
  match structureArrays responses with
  | Some arrays =>
      let uniqueStructures :=
        JsArray.unique (map shortName (omap id (concat arrays))) in
      let batches := JsArray.slices batchSize uniqueStructures in
      upd (setLoadingState (withTotalBatches (length batches)));;
      foundElements ←
        processBatches searchTerm (length batches) batches 0 foundElements structureCache;
      upd (setLoadingState notLoading);;
      mret (JsArray.sort lowerRelevance (JsMap.values foundElements))
  | None =>
      upd (setLoadingState notLoading);;
      mret (JsMap.values foundElements)
  end.

(** *** The search orchestrator *)

Definition quote : string := String "034" EmptyString.

Definition noMatchMessage (searchTerm : string) : string :=
  ("No data elements found containing " ++ quote ++ searchTerm ++ quote)%string.

Definition searchErrorMessage (message : string) : string :=
  ("Error searching for elements: " ++ message)%string.

(** [(prev) => [term, ...prev].slice(0, 10)] *)
Definition remember (term : string) (prev : list string) : list string :=
  take 10 (term :: prev).

(** [view] is the state of the render that created the handler: the
    handler reads [searchTerm] and [recentSearches] from it. *)
Definition handlePartialSearch (view : State) : Task State unit :=
  let searchTerm := searchTerm view in
  let recentSearches := recentSearches view in
  if Js.isEmpty (Js.trim searchTerm) then mret tt
  else
    upd (setLoading true);;
    upd (setError None);;
    upd (setIsPartialSearch true);;
    upd (setMatchingElements []);;
    upd (setElement None);;
    directResponse ← fetch (GetDataElement (Js.trim searchTerm));
    match directResponse with
    | Ok data =>
        upd (setElement (Some data));;
        upd (setIsPartialSearch false);;
        (if negb (bool_decide (Js.trim searchTerm ∈ recentSearches))
         then upd (setRecentSearches (remember (Js.trim searchTerm)))
         else skip);;
        upd (setLoading false);;
        upd (setLoading false)
    | NotOk =>
        matchingElements ← findElementsByPattern (Js.trim searchTerm);
        if length matchingElements =? 0 then
          upd (setError (Some (noMatchMessage searchTerm)));;
          upd (setLoading false);;
          upd (setLoading false)
        else
          upd (setMatchingElements matchingElements);;
          match matchingElements with
          | [only] =>
              perfectMatch ← fetch (GetDataElement (mr_name only));
              match perfectMatch with
              | Ok data =>
                  upd (setElement (Some data));;
                  upd (setIsPartialSearch false);;
                  (if negb (bool_decide (mr_name only ∈ recentSearches))
                   then upd (setRecentSearches (remember (mr_name only)))
                   else skip)
              | NotOk => skip
              | Failed _ => skip
              end
          | _ => skip
          end;;
          upd (setLoading false)
    | Failed message =>
        upd (setError (Some (searchErrorMessage message)));;
        upd (setLoading false)
    end.

Definition handleSearch (view : State) : Task State unit :=
  if Js.isEmpty (Js.trim (searchTerm view)) then mret tt
  else handlePartialSearch view.

End WithEngine.

End PatternSearch.

(** ** Predicates on tasks used in the proofs *)

Module TaskFacts.
Import Api Async.

(** Every state update of the task satisfies [P]. *)
Fixpoint updatesAll {St R} (P : (St → St) → Prop) (t : Task St R) : Prop :=
  match t with
  | Ret _ => True
  | Upd f k => P f ∧ updatesAll P k
  | Fetch _ k => ∀ o, updatesAll P (k o)
  | FetchAll _ k => ∀ os, updatesAll P (k os)
  end.

(** States that differ in the progress counters only. *)
Definition sameButProgress (s s' : PatternSearch.State) : Prop :=
  PatternSearch.searchTerm s' = PatternSearch.searchTerm s ∧
  PatternSearch.loading s' = PatternSearch.loading s ∧
  PatternSearch.error s' = PatternSearch.error s ∧
  PatternSearch.element s' = PatternSearch.element s ∧
  PatternSearch.recentSearches s' = PatternSearch.recentSearches s ∧
  PatternSearch.matchingElements s' = PatternSearch.matchingElements s ∧
  PatternSearch.isPartialSearch s' = PatternSearch.isPartialSearch s.

(** How many times [shortName] stands in a list of structure names. *)
Definition occurrences (shortName : string) (l : list string) : nat :=
  length (filter (fun s => s = shortName) l).

Definition progressOnly (f : PatternSearch.State → PatternSearch.State) : Prop :=
  ∀ s, sameButProgress s (f s).

End TaskFacts.

(** ** Whole-word occurrence, decided *)

Module WordFacts.
Import RegExp.

(** The character before a position that follows [l], when [prev] is
    the character before [l]. *)
Definition lastOr (prev : option ascii) (l : list ascii) : option ascii :=
  match last l with
  | Some c => Some c
  | None => prev
  end.

(** The pattern of a word taken literally, between two word boundaries. *)
Definition wholeWord (word : list ascii) : list Atom :=
  WordBoundary :: map Literal word ++ [WordBoundary].


End WordFacts.

(** ** A small catalog, used for the concrete runs below *)

Module Catalog.
Import Api Async.

Definition elem (n d : string) : Element :=
  {| name := n; type := Some "String"; description := Some d |}.

Definition detail (n d : string) : ElementDetail :=
  {| ed_name := n; ed_type := Some "String"; ed_description := Some d;
     ed_notes := None; ed_valueRange := None; ed_dataStructures := ["ndar_subject01"] |}.

Definition summary (s : string) : StructureSummary :=
  {| shortName := s; title := None; category := None |}.

Definition subject01 : list Element :=
  [ elem "subjectkey" "The NDAR Global Unique Identifier";
    elem "tap_count" "Number of taps made";
    elem "interview_age" "Age in months at the time of the interview" ].

Definition bmi01 : list Element :=
  [ elem "subjectkey" "The NDAR Global Unique Identifier";
    elem "bmi_z" "BMI z-score" ].

Definition server : Server := fun A req =>
  match req in Req A return Outcome A with
  | GetDataElement n =>
      if String.eqb n "subjectkey" then Ok (detail n "The NDAR Global Unique Identifier")
      else if String.eqb n "tap_count" then Ok (detail n "Number of taps made")
      else NotOk
  | SearchElements _ => Ok None
  | SearchStructures _ => Ok [Some (summary "ndar_subject01"); None; Some (summary "bmi01")]
  | ListCategory _ => Ok [Some (summary "bmi01"); Some (summary "tapping01")]
  | GetDataStructure s =>
      if String.eqb s "ndar_subject01" then Ok {| dataElements := Some subject01 |}
      else if String.eqb s "bmi01" then Ok {| dataElements := Some bmi01 |}
      else NotOk
  | Sleep _ => Ok tt
  end.

Definition rx : RegExp.Engine := RegExp.fragmentEngine.

(** Two retrieved structures that share the element "tap". *)
Definition tapStructures : list (string * list Element) :=
  [ ("tapping01",
     [ elem "tap" "Count per minute";
       elem "hand" "Hand used for the tap test" ]);
    ("motor01",
     [ elem "tap" "Tap speed";
       elem "taps_left" "Taps, left hand";
       elem "foot" "Foot used for the tap test";
       elem "notes" "Free text" ]) ].

Definition summaryOf (r : PatternSearch.MatchRecord)
  : string * string * PatternSearch.MatchType * Z :=
  (PatternSearch.mr_name r, PatternSearch.structure r,
   PatternSearch.matchType r, PatternSearch.relevance r).

(** The component as mounted, with [q] typed into the search box. *)
Definition idle (q : string) : PatternSearch.State :=
  {| PatternSearch.searchTerm := q;
     PatternSearch.loading := false;
     PatternSearch.error := None;
     PatternSearch.element := None;
     PatternSearch.recentSearches := [];
     PatternSearch.matchingElements := [];
     PatternSearch.isPartialSearch := false;
     PatternSearch.loadingState :=
       {| PatternSearch.isLoading := false; PatternSearch.currentBatch := 0;
          PatternSearch.totalBatches := 0; PatternSearch.matchesFound := 0 |} |}.

Definition idle1 (q : string) : ApiSearch.State :=
  {| ApiSearch.searchTerm := q;
     ApiSearch.loading := false;
     ApiSearch.error := None;
     ApiSearch.element := None;
     ApiSearch.matchingElements := [];
     ApiSearch.isPartialSearch := false;
     ApiSearch.recentSearches := [] |}.

(** Two searches for "taps", one after the other has finished. *)
Definition searchTwice : PatternSearch.State * list Call :=
  let st0 := idle "taps" in
  let '(_, st1, log1) := exec server (PatternSearch.handleSearch rx st0) st0 [] in
  let '(_, st2, log2) := exec server (PatternSearch.handleSearch rx st1) st1 log1 in
  (st2, log2).

(** Search A for "taps" is started and gets as far as its first batch of
    structure fetches. *)
Definition searchInFlight : PatternSearch.State * Task PatternSearch.State unit :=
  let st0 := idle "taps" in
  let '(st1, a) := runSync (PatternSearch.handleSearch rx st0) st0 in
  let '(st2, a) := resume server a st1 in        (* exact lookup: miss *)
  resume server a st2.                           (* discovery: batch 1 requested *)

(** Then "subjectkey" is typed and search B is started with Enter. *)
Definition secondSearchStarts : PatternSearch.State :=
  PatternSearch.setSearchTerm "subjectkey" (fst searchInFlight).

(** B's response arrives first, A's responses after it. *)
Definition overlappingSearches
  : PatternSearch.State * Task PatternSearch.State unit * Task PatternSearch.State unit :=
  let a := snd searchInFlight in
  let '(st, b) :=
    runSync (PatternSearch.handleSearch rx secondSearchStarts) secondSearchStarts in
  foldl (fun c arrival => deliver server arrival c) (st, a, b)
        [second; first; first].

(** Search B alone, from the state in which it was started. *)
Definition secondSearchAlone : PatternSearch.State :=
  finalState server (PatternSearch.handleSearch rx secondSearchStarts) secondSearchStarts.

End Catalog.

(** ** What one pattern search retrieves and requests *)

Module Retrieval.
Import Api Async PatternSearch.

(** The value of a promise once the service has answered. *)
Definition resolve {A B} (server : Server) (p : Promise A B) : B :=
  match p with
  | Resolved b => b
  | Pending req k => k (server _ req)
  end.

(** The elements the service lists for one structure; nothing when the
    fetch fails. *)
Definition structureElements (server : Server) (shortName : string)
  : option (string * list Element) :=
  match server _ (GetDataStructure shortName) with
  | Ok data => Some (shortName, default [] (dataElements data))
  | NotOk => None
  | Failed _ => None
  end.

Definition retrieved (server : Server) (names : list string)
  : list (string * list Element) :=
  omap (structureElements server) names.

(** The candidate structures of a search term: the names the two
    discovery requests list, without duplicates; [None] when a discovery
    request fails. *)
Definition discovered (server : Server) (searchTerm : string) : option (list string) :=
  arrays ← structureArrays
             [server _ (SearchStructures searchTerm);
              server _ (ListCategory "cognitive_task")];
  Some (JsArray.unique (map shortName (omap id (concat arrays)))).


(** Every cache entry is what the service lists for the structure. *)
Definition cacheSound (server : Server) (cache : JsMap.t (list Element)) : Prop :=
  ∀ k v, JsMap.get cache k = Some v → structureElements server k = Some (k, v).





End Retrieval.

(** ** The other handlers of the second revision, and what the page shows *)

Module Handlers.
Import Api Async PatternSearch.

(** The conditions under which the page renders its panels. *)
Definition showsError (s : State) : bool :=
  match error s with
  | Some message => negb (Js.isEmpty message)
  | None => false
  end.

Definition showsMatches (s : State) : bool :=
  isPartialSearch s && negb (length (matchingElements s) =? 0).

Definition showsElement (s : State) : bool :=
  match element s with
  | Some _ => true
  | None => false
  end.

Definition showsTips (s : State) : bool :=
  negb (loading s) && negb (showsError s) && negb (showsElement s) &&
  negb (isPartialSearch s) && negb (Js.isEmpty (searchTerm s)).

(** [response.ok] of a fetch that did not throw. *)
Definition delivered {A} (response : Outcome A) : bool :=
  match response with
  | Ok _ => true
  | _ => false
  end.

(** [onClick] of a row of the matching elements. *)
Definition onMatchClick (view : State) (match_ : MatchRecord) : Task State unit :=
  upd (setSearchTerm (mr_name match_));;
  upd (setIsPartialSearch false);;
  upd (setMatchingElements []);;
  response ← fetch (GetDataElement (mr_name match_));
  match response with
  | Ok data =>
      upd (setElement (Some data));;
      (if negb (bool_decide (mr_name match_ ∈ recentSearches view))
       then upd (setRecentSearches (remember (mr_name match_)))
       else skip)
  | NotOk => skip
  | Failed _ => skip
  end.

Section WithEngine.
Context (rx : RegExp.Engine).

(** [setSearchTerm(term); setTimeout(() => handleSearch(), 0)]: the
    [handleSearch] that runs is the one of the render that created this
    handler. *)
Definition handleRecentSearch (view : State) (term : string) : Task State unit :=
  upd (setSearchTerm term);;
  handleSearch rx view.

End WithEngine.


End Handlers.

(** ** What the aggregator looks for, in words *)

Module Matching.
Import PatternSearch.




(** Two records that differ in their relevance at most. *)
Definition sameButRelevance (r r' : MatchRecord) : Prop :=
  mr_name r' = mr_name r ∧ mr_type r' = mr_type r ∧
  mr_description r' = mr_description r ∧ structure r' = structure r ∧
  matchType r' = matchType r.

End Matching.

(** ** What the page of the first revision shows *)

Module ApiHandlers.
Import Api Async ApiSearch.

Definition showsError (s : State) : bool :=
  match error s with
  | Some message => negb (Js.isEmpty message)
  | None => false
  end.

Definition showsMatches (s : State) : bool :=
  isPartialSearch s && negb (length (matchingElements s) =? 0).

Definition showsElement (s : State) : bool :=
  match element s with
  | Some _ => negb (isPartialSearch s)
  | None => false
  end.

Definition showsTips (s : State) : bool :=
  negb (loading s) && negb (showsError s) &&
  match element s with Some _ => false | None => true end &&
  negb (isPartialSearch s) && negb (Js.isEmpty (searchTerm s)).

(** The hits of the full-text search whose detail the service returns. *)
Definition detailed (server : Server) (hits : list SearchHit) : list SearchHit :=
  filter (fun hit => Handlers.delivered (server _ (GetDataElement (hit_name hit))) = true) hits.

(** The requests of a search that goes through the full-text search. *)
Definition listCalls (searchQuery : string) (hits : list SearchHit) : list Call :=
  call (GetDataElement searchQuery) :: call (SearchElements searchQuery) ::
  map (fun hit => call (GetDataElement (hit_name hit))) hits.

End ApiHandlers.

(** ** More of the catalog *)

Module Listing.
Import Api Async.

Definition hit (n : string) : SearchHit :=
  {| hit_name := n; hit_type := None; hit_dataStructures := None; hit_score := None |}.

(** The service of [Catalog], with a full-text search that lists
    "tap_count", an element "retired" that has no detail, and
    "subjectkey". *)
Definition server : Server := fun A req =>
  match req in Req A return Outcome A with
  | SearchElements _ => Ok (Some [hit "tap_count"; hit "retired"; hit "subjectkey"])
  | req => Catalog.server _ req
  end.

(** A full-text search that lists an element without detail only. *)
Definition staleIndex : Server := fun A req =>
  match req in Req A return Outcome A with
  | SearchElements _ => Ok (Some [hit "retired"])
  | req => Catalog.server _ req
  end.

(** No network. *)
Definition offline : Server := fun A _ => Failed "Failed to fetch".

Definition record (n d s : string) (t : PatternSearch.MatchType) (v : Z)
  : PatternSearch.MatchRecord :=
  {| PatternSearch.mr_name := n; PatternSearch.mr_type := "String";
     PatternSearch.mr_description := d; PatternSearch.structure := s;
     PatternSearch.matchType := t; PatternSearch.relevance := v |}.

End Listing.
(** * Proofs *)

(** ** The edit-distance table *)

Section EditDistance.
Import TokenScorer.

Lemma lev_nil_r s : lev s [] = length s.
Proof. by destruct s. Qed.

Lemma lev_cons_cons a b s t :
  lev (a :: s) (b :: t) =
  Nat.min (lev s (b :: t) + 1)
    (Nat.min (lev (a :: s) t + 1) (lev s t + (if decide (a = b) then 0 else 1))).
Proof. reflexivity. Qed.

Lemma lev_sym s t : lev s t = lev t s.
Proof.
  revert t. induction s as [|a s IHs]; intros t.
  - by rewrite lev_nil_r.
  - induction t as [|b t IHt]; [by rewrite lev_nil_r|].
    rewrite !lev_cons_cons, IHt, (IHs (b :: t)), (IHs t).
    do 2 case_decide; subst; try congruence; lia.
Qed.

Lemma lev_diag s : lev s s = 0.
Proof.
  induction s as [|a s IH]; [done|].
  rewrite lev_cons_cons, IH. case_decide; [lia|congruence].
Qed.

Lemma foldl_seq_invariant {A} (P : nat → A → Prop) (f : A → nat → A) len :
  ∀ start a,
    P start a →
    (∀ k x, start ≤ k < start + len → P k x → P (S k) (f x k)) →
    P (start + len) (foldl f a (seq start len)).
Proof.
  induction len as [|len IH]; intros start a Ha Hstep; simpl.
  - by rewrite Nat.add_0_r.
  - rewrite <-Nat.add_succ_comm. apply IH.
    + apply Hstep; [lia|done].
    + intros k x Hk. apply Hstep. lia.
Qed.

Context (s1 s2 : list ascii).
Local Abbreviation n1 := (length s1).
Local Abbreviation n2 := (length s2).
Local Abbreviation D := (TokenScorer.D s1 s2).
Local Abbreviation shape := (TokenScorer.shape s1 s2).
Local Abbreviation known := (TokenScorer.known s1 s2).
Local Abbreviation blank := (TokenScorer.blank s1 s2).
Local Abbreviation afterRow0 := (TokenScorer.afterRow0 s1 s2).
Local Abbreviation afterCol0 := (TokenScorer.afterCol0 s1 s2).
Local Abbreviation afterFill := (TokenScorer.afterFill s1 s2).
Local Abbreviation border := (TokenScorer.border s1 s2).
Local Abbreviation rowsDone := (TokenScorer.rowsDone s1 s2).

Lemma D_row0 i : i ≤ n1 → D 0 i = i.
Proof.
  intros Hi. unfold D. rewrite take_0. simpl. rewrite lev_nil_r, length_rev.
  apply length_take_le. done.
Qed.

Lemma D_col0 j : j ≤ n2 → D j 0 = j.
Proof.
  intros Hj. unfold D. rewrite take_0. simpl. rewrite length_rev.
  by apply length_take_le.
Qed.

Lemma D_step j i :
  1 ≤ i ≤ n1 → 1 ≤ j ≤ n2 →
  D j i = Nat.min (D j (i - 1) + 1)
            (Nat.min (D (j - 1) i + 1) (D (j - 1) (i - 1) + indicator s1 s2 i j)).
Proof.
  intros Hi Hj. destruct i as [|i]; [lia|]. destruct j as [|j]; [lia|].
  replace (S i - 1) with i by lia. replace (S j - 1) with j by lia.
  destruct (lookup_lt_is_Some_2 s1 i) as [a Ha]; [fold n1; lia|].
  destruct (lookup_lt_is_Some_2 s2 j) as [b Hb]; [fold n2; lia|].
  unfold D, indicator.
  rewrite (take_S_r s1 i a), (take_S_r s2 j b) by done.
  rewrite !rev_unit, lev_cons_cons.
  replace (S i - 1) with i by lia. replace (S j - 1) with j by lia.
  rewrite Ha, Hb.
  destruct (decide (a = b)), (decide (Some a = Some b)); try congruence; done.
Qed.

Lemma shape_store t j i v : shape t → shape (store t j i v).
Proof.
  intros [Hlen Hrows]. split.
  - unfold store. by rewrite length_alter.
  - intros j' row. unfold store. rewrite list_lookup_alter.
    case_decide; subst.
    + destruct (t !! j') as [r|] eqn:E; simpl; [|done].
      intros [= <-]. rewrite length_insert. eauto.
    + eauto.
Qed.

Lemma cell_store_eq t j i v :
  shape t → j ≤ n2 → i ≤ n1 → cell (store t j i v) j i = Some v.
Proof.
  intros [Hlen Hrows] Hj Hi. unfold cell, store.
  rewrite list_lookup_alter_eq.
  destruct (lookup_lt_is_Some_2 t j) as [row Hrow]; [lia|].
  rewrite Hrow. simpl.
  rewrite list_lookup_insert_eq; [done|]. rewrite (Hrows _ _ Hrow). lia.
Qed.

Lemma cell_store_ne t j i v j' i' :
  (j, i) ≠ (j', i') → cell (store t j i v) j' i' = cell t j' i'.
Proof.
  intros Hne. unfold cell, store.
  destruct (decide (j = j')) as [->|Hj].
  - rewrite list_lookup_alter_eq.
    destruct (t !! j') as [row|]; simpl; [|done].
    rewrite list_lookup_insert_ne; [done|]. congruence.
  - by rewrite list_lookup_alter_ne.
Qed.

Lemma known_store t (R : nat → nat → Prop) j i :
  shape t → known t R → j ≤ n2 → i ≤ n1 →
  known (store t j i (D j i)) (λ j' i', R j' i' ∨ (j' = j ∧ i' = i)).
Proof.
  intros Hs Hk Hj Hi j' i' HR.
  destruct (decide ((j, i) = (j', i'))) as [[= <- <-]|Hne].
  - by apply cell_store_eq.
  - rewrite cell_store_ne by done. apply Hk.
    destruct HR as [?|[-> ->]]; [done|congruence].
Qed.

Lemma known_weaken t (R R' : nat → nat → Prop) :
  known t R → (∀ j i, R' j i → R j i) → known t R'.
Proof. intros Hk Hsub j i HR. apply Hk, Hsub, HR. Qed.

Lemma shape_blank : shape blank.
Proof.
  split; [apply length_replicate|].
  intros j row [-> _]%lookup_replicate. apply length_replicate.
Qed.

Lemma afterRow0_spec :
  shape afterRow0 ∧ known afterRow0 (λ j i, j = 0 ∧ i ≤ n1).
Proof.
  pose proof (foldl_seq_invariant
    (λ k t, shape t ∧ known t (λ j i, j = 0 ∧ i < k))
    (λ t i, store t 0 i i) (n1 + 1) 0 blank) as H.
  destruct H as [Hs Hk].
  - split; [apply shape_blank|]. intros j i [_ ?]. lia.
  - intros k t Hk [Hs Hkn]. split; [by apply shape_store|].
    replace (store t 0 k k) with (store t 0 k (D 0 k)) by (rewrite D_row0; [done|lia]).
    eapply known_weaken; [apply known_store; eauto; lia|].
    simpl. intros j i [-> Hi]. destruct (decide (i = k)); [right|left]; lia.
  - split; [done|]. eapply known_weaken; [done|]. simpl. intros; lia.
Qed.

Lemma afterCol0_spec : shape afterCol0 ∧ known afterCol0 border.
Proof.
  destruct afterRow0_spec as [Hs0 Hk0].
  pose proof (foldl_seq_invariant
    (λ k t, shape t ∧ known t (λ j i, (j = 0 ∧ i ≤ n1) ∨ (i = 0 ∧ j < k)))
    (λ t j, store t j 0 j) (n2 + 1) 0 afterRow0) as H.
  destruct H as [Hs Hk].
  - split; [done|]. eapply known_weaken; [done|]. simpl. intros; lia.
  - intros k t Hk [Hs Hkn]. split; [by apply shape_store|].
    replace (store t k 0 k) with (store t k 0 (D k 0)) by (rewrite D_col0; [done|lia]).
    eapply known_weaken; [apply known_store; eauto; lia|].
    simpl. intros j i [?|[-> Hj]]; [by left; left|].
    destruct (decide (j = k)); [right|left; right]; lia.
  - split; [done|]. eapply known_weaken; [done|]. unfold border. simpl. intros; lia.
Qed.

Lemma fillCell_spec t J I :
  1 ≤ J ≤ n2 → 1 ≤ I ≤ n1 →
  shape t → known t (λ j i, rowsDone J j i ∨ (j = J ∧ i < I)) →
  fillCell s1 s2 J t I = store t J I (D J I).
Proof.
  intros HJ HI Hs Hk. unfold fillCell.
  rewrite (Hk J (I - 1)), (Hk (J - 1) I), (Hk (J - 1) (I - 1)); simpl.
  - by rewrite <-D_step.
  - left. left. lia.
  - left. left. lia.
  - right. lia.
Qed.

Lemma fillRow_spec t J :
  1 ≤ J ≤ n2 → shape t → known t (rowsDone J) →
  let t' := foldl (fillCell s1 s2 J) t (seq 1 n1) in
  shape t' ∧ known t' (rowsDone (S J)).
Proof.
  intros HJ Hs Hk.
  pose proof (foldl_seq_invariant
    (λ k t, shape t ∧ known t (λ j i, rowsDone J j i ∨ (j = J ∧ i < k)))
    (fillCell s1 s2 J) n1 1 t) as H.
  destruct H as [Hs' Hk'].
  - split; [done|]. eapply known_weaken; [done|]. simpl.
    intros j i [?|[-> ?]]; [done|]. right. lia.
  - intros k x Hk' [Hsx Hkx].
    rewrite (fillCell_spec x J k) by (done || lia).
    split; [by apply shape_store|].
    eapply known_weaken; [apply known_store; eauto; lia|].
    simpl. intros j i [?|[-> Hi]]; [by left; left|].
    destruct (decide (i = k)); [right|left; right]; lia.
  - simpl. split; [done|]. eapply known_weaken; [done|]. simpl.
    unfold rowsDone. intros j i [[Hj Hi]|?]; [|left; by right].
    destruct (decide (j = J)) as [->|]; [|left; left; lia].
    destruct (decide (i = 0)) as [->|]; [left; right; lia|right; lia].
Qed.

Lemma afterFill_spec : shape afterFill ∧ known afterFill (rowsDone (S n2)).
Proof.
  destruct afterCol0_spec as [Hs0 Hk0].
  pose proof (foldl_seq_invariant
    (λ k t, shape t ∧ known t (rowsDone k))
    (λ t j, foldl (fillCell s1 s2 j) t (seq 1 n1)) n2 1 afterCol0) as H.
  apply H.
  - split; [done|]. eapply known_weaken; [done|]. unfold rowsDone, border.
    intros j i [[? ?]|?]; [left|right]; lia.
  - intros k t Hk [Hs Hkn]. apply fillRow_spec; [lia|done..].
Qed.

Lemma table_final : cell afterFill n2 n1 = Some (lev (rev s1) (rev s2)).
Proof.
  destruct afterFill_spec as [_ Hk].
  rewrite (Hk n2 n1); [|left; lia].
  unfold D, n1, n2. by rewrite !firstn_all.
Qed.

End EditDistance.

Lemma levenshteinDistance_lev str1 str2 :
  TokenScorer.levenshteinDistance str1 str2 =
  Some (TokenScorer.lev (rev (Js.chars str1)) (rev (Js.chars str2))).
Proof. apply table_final. Qed.

(** C7. The edit distance of a string to itself is 0, the distance is
    symmetric in its two arguments, and the distance from "kitten" to
    "sitting" is 3. *)
Theorem levenshteinDistance_properties :
  (∀ a, TokenScorer.levenshteinDistance a a = Some 0) ∧
  (∀ a b, TokenScorer.levenshteinDistance a b = TokenScorer.levenshteinDistance b a) ∧
  TokenScorer.levenshteinDistance "kitten" "sitting" = Some 3.
Proof.
  split; [|split].
  - intros a. by rewrite levenshteinDistance_lev, lev_diag.
  - intros a b. by rewrite !levenshteinDistance_lev, lev_sym.
  - vm_compute. reflexivity.
Qed.

(** ** Token relevance (first revision) *)

Lemma calculateRelevance_exact e q :
  Js.toLowerCase (name e) = Js.toLowerCase q →
  TokenScorer.calculateRelevance e q = 1000%float.
Proof.
  intros H. unfold TokenScorer.calculateRelevance.
  rewrite H, String.eqb_refl. reflexivity.
Qed.

(** C1. The exact-match score 1000 is not above every other score: for
    the query "visit_1_day_2_am_bp" the element
    "visit_1_day_2_am_bp_systolic", whose name is not the query, scores
    six token bonuses and the prefix bonus, 1100, while the element named
    like the query scores 1000. *)
Theorem calculateRelevance_above_exact_match :
  let q := "visit_1_day_2_am_bp" in
  let exact := {| name := "Visit_1_Day_2_AM_BP"; type := None; description := None |} in
  let longer := {| name := "visit_1_day_2_am_bp_systolic"; type := None; description := None |} in
  Js.toLowerCase (name longer) ≠ Js.toLowerCase q ∧
  TokenScorer.calculateRelevance exact q = 1000%float ∧
  TokenScorer.calculateRelevance longer q = 1100%float ∧
  PrimFloat.ltb (TokenScorer.calculateRelevance exact q)
                (TokenScorer.calculateRelevance longer q) = true.
Proof.
  cbv zeta. split; [|split; [|split]].
  - vm_compute. discriminate.
  - apply calculateRelevance_exact. reflexivity.
  - vm_compute. reflexivity.
  - vm_compute. reflexivity.
Qed.

(** ** Running tasks *)

Section TaskLemmas.
Import Api Async TaskFacts.
Context {St : Type}.

Lemma exec_bind {R S} (server : Server) (t : Task St R) (f : R → Task St S) st log :
  exec server (t ≫= f) st log =
  exec server (f (exec server t st log).1.1) (exec server t st log).1.2 (exec server t st log).2.
Proof.
  revert st log. induction t as [r|g k IH|A req k IH|A reqs k IH]; intros st log; simpl.
  - reflexivity.
  - apply IH.
  - apply IH.
  - apply IH.
Qed.

Lemma exec_result {R} (server : Server) (t : Task St R) st log :
  (exec server t st log).1.1 = result server t.
Proof.
  revert st log. induction t as [r|g k IH|A req k IH|A reqs k IH]; intros st log; simpl; auto.
Qed.

(** A task never reads the state: the requests it sends are the same
    from every state, and they are added to the log. *)
Lemma exec_log {R} (server : Server) (t : Task St R) :
  ∀ st st' log, (exec server t st log).2 = log ++ (exec server t st' []).2.
Proof.
  induction t as [r|g k IH|A req k IH|A reqs k IH]; intros st st' log; simpl.
  - by rewrite app_nil_r.
  - apply IH.
  - rewrite (IH _ st st' (log ++ [call req])), (IH _ st' st' [call req]).
    by rewrite app_assoc.
  - rewrite (IH _ st st' (log ++ map call reqs)), (IH _ st' st' (map call reqs)).
    by rewrite app_assoc.
Qed.

Lemma updatesAll_bind {R S} P (t : Task St R) (f : R → Task St S) :
  updatesAll P t → (∀ r, updatesAll P (f r)) → updatesAll P (t ≫= f).
Proof.
  intros Ht Hf. induction t as [r|g k IH|A req k IH|A reqs k IH]; simpl in *.
  - apply Hf.
  - destruct Ht. split; [done|]. by apply IH.
  - intros o. by apply IH.
  - intros os. by apply IH.
Qed.

Lemma exec_updatesAll {R} (P : (St → St) → Prop) (Q : St → St → Prop)
    (server : Server) (t : Task St R) :
  (∀ s, Q s s) →
  (∀ f s s', P f → Q s s' → Q s (f s')) →
  updatesAll P t →
  ∀ st st' log, Q st st' → Q st (exec server t st' log).1.2.
Proof.
  intros Hrefl Hstep.
  induction t as [r|g k IH|A req k IH|A reqs k IH]; simpl; intros Ht st st' log HQ.
  - done.
  - destruct Ht as [Hg Hk]. apply IH; [done|]. by apply Hstep.
  - by apply IH.
  - by apply IH.
Qed.

End TaskLemmas.

(** ** Blank queries *)

Lemma trimStart_blank s : forallb Js.isSpace (Js.chars s) = true → Js.trimStart s = "".
Proof.
  induction s as [|c s IH]; simpl; [done|].
  intros [Hc Hs]%andb_prop. rewrite Hc. by apply IH.
Qed.

Lemma trim_blank s : forallb Js.isSpace (Js.chars s) = true → Js.trim s = "".
Proof. intros H. unfold Js.trim. by rewrite trimStart_blank. Qed.

(** C9. A search on an empty or all-blank query does nothing: in both
    revisions the handler returns at once, sends no request, and leaves
    the whole state (loading, error, element, matching elements, recent
    searches) as it was. *)
Theorem blank_query_is_noop :
  ∀ (rx : RegExp.Engine) (server : Api.Server) (log : list Api.Call)
    (st : PatternSearch.State) (st1 : ApiSearch.State),
    forallb Js.isSpace (Js.chars (PatternSearch.searchTerm st)) = true →
    forallb Js.isSpace (Js.chars (ApiSearch.searchTerm st1)) = true →
    PatternSearch.handleSearch rx st = Async.Ret tt ∧
    PatternSearch.handlePartialSearch rx st = Async.Ret tt ∧
    ApiSearch.handleSearch st1 = Async.Ret tt ∧
    Async.exec server (PatternSearch.handleSearch rx st) st log = (tt, st, log) ∧
    Async.exec server (PatternSearch.handlePartialSearch rx st) st log = (tt, st, log) ∧
    Async.exec server (ApiSearch.handleSearch st1) st1 log = (tt, st1, log).
Proof.
  intros rx server log st st1 H H1.
  unfold PatternSearch.handleSearch, PatternSearch.handlePartialSearch,
    ApiSearch.handleSearch.
  rewrite (trim_blank _ H), (trim_blank _ H1). simpl. done.
Qed.


(** C9, witness: three blanks typed into the search box. *)
Lemma blank_query_is_noop_witness :
  Async.exec Catalog.server
    (PatternSearch.handleSearch Catalog.rx (Catalog.idle "   ")) (Catalog.idle "   ") [] =
  (tt, Catalog.idle "   ", []) ∧
  Async.exec Catalog.server (ApiSearch.handleSearch (Catalog.idle1 "   "))
    (Catalog.idle1 "   ") [] =
  (tt, Catalog.idle1 "   ", []).
Proof.
  destruct (blank_query_is_noop Catalog.rx Catalog.server []
              (Catalog.idle "   ") (Catalog.idle1 "   ") eq_refl eq_refl)
    as (_ & _ & _ & H2 & _ & H1).
  exact (conj H2 H1).
Defined.

(** ** The pattern search touches the progress counters only *)

Section PatternSearchFrame.
Import Api Async TaskFacts PatternSearch.
Context (rx : RegExp.Engine).

Lemma sameButProgress_refl s : sameButProgress s s.
Proof. by repeat split. Qed.

Lemma sameButProgress_step f s s' :
  progressOnly f → sameButProgress s s' → sameButProgress s (f s').
Proof.
  intros Hf Hs. specialize (Hf s'). unfold sameButProgress in *.
  destruct_and!. repeat split; congruence.
Qed.

Lemma progressOnly_setLoadingState g : progressOnly (setLoadingState g).
Proof. intros s. by repeat split. Qed.

Lemma processBatches_progressOnly searchTerm total batches :
  ∀ batchIndex found cache,
    updatesAll progressOnly
      (processBatches rx searchTerm total batches batchIndex found cache).
Proof.
  induction batches as [|batch rest IH]; intros batchIndex found cache; simpl; [done|].
  split; [apply progressOnly_setLoadingState|].
  intros os. destruct (batchIndex <? total - 1); simpl; [intros _|]; apply IH.
Qed.

Lemma findElementsByPattern_progressOnly term :
  updatesAll progressOnly (findElementsByPattern rx term).
Proof.
  unfold findElementsByPattern. simpl.
  split; [apply progressOnly_setLoadingState|].
  intros os. destruct (structureArrays os); simpl.
  - split; [apply progressOnly_setLoadingState|].
    apply (updatesAll_bind progressOnly
             (processBatches rx _ _ _ 0 JsMap.empty JsMap.empty)).
    + apply processBatches_progressOnly.
    + intros r. simpl. split; [apply progressOnly_setLoadingState|done].
  - split; [apply progressOnly_setLoadingState|done].
Qed.

Lemma findElementsByPattern_frame server term st log :
  sameButProgress st (exec server (findElementsByPattern rx term) st log).1.2.
Proof.
  apply (exec_updatesAll progressOnly sameButProgress).
  - apply sameButProgress_refl.
  - intros f s s'. apply sameButProgress_step.
  - apply findElementsByPattern_progressOnly.
  - apply sameButProgress_refl.
Qed.

End PatternSearchFrame.

(** ** No match *)

Section NoMatch.
Import Api Async TaskFacts PatternSearch.
Local Opaque findElementsByPattern.

(** C3 (amended). When the exact lookup misses and the pattern search
    returns no record, the search ends with the error message that quotes
    the query as typed, nothing loading, no element and no matching
    elements; the recent searches are left as they were. *)
Theorem no_match_state (rx : RegExp.Engine) (server : Server) (st : State) :
  Js.isEmpty (Js.trim (searchTerm st)) = false →
  server _ (GetDataElement (Js.trim (searchTerm st))) = NotOk →
  result server (findElementsByPattern rx (Js.trim (searchTerm st))) = [] →
  let st' := finalState server (handleSearch rx st) st in
  error st' =
    Some ("No data elements found containing " ++ quote ++ searchTerm st ++ quote)%string ∧
  loading st' = false ∧
  element st' = None ∧
  matchingElements st' = [] ∧
  isPartialSearch st' = true ∧
  recentSearches st' = recentSearches st.
Proof.
  intros Hq Hmiss Hnone. unfold finalState, handleSearch, handlePartialSearch.
  rewrite Hq. simpl. rewrite Hmiss.
  rewrite exec_bind, exec_result, Hnone. simpl.
  match goal with
  | |- context [exec server (findElementsByPattern rx ?t) ?s ?l] =>
      destruct (findElementsByPattern_frame rx server t s l)
        as (_ & _ & _ & He & Hr & Hm & Hp)
  end.
  simpl in *. by rewrite He, Hr, Hm, Hp.
Qed.

(** C8 (amended). A search that runs after the earlier one has finished
    supersedes it: what the page shows at the end (loading, error,
    element, matching elements, partial-search flag) depends on the query
    and the answers of the service only, not on anything the earlier
    search left in the state. *)
Theorem finished_search_is_superseded (rx : RegExp.Engine) (server : Server)
    (st st' : State) :
  Js.isEmpty (Js.trim (searchTerm st)) = false →
  searchTerm st' = searchTerm st →
  display (finalState server (handleSearch rx st') st') =
  display (finalState server (handleSearch rx st) st).
Proof.
  intros Hq Hsame. unfold finalState, handleSearch, handlePartialSearch.
  rewrite Hsame, Hq. simpl.
  destruct (server _ (GetDataElement (Js.trim (searchTerm st)))) as [data| |message]; simpl.
  - do 2 (case_bool_decide; simpl); reflexivity.
  - rewrite !exec_bind, !exec_result.
    do 2 match goal with
    | |- context [(exec server (findElementsByPattern rx ?t) ?s ?l).1.2] =>
        let H := fresh "F" in
        pose proof (findElementsByPattern_frame rx server t s l) as H;
        destruct H as (_ & ? & ? & ? & _ & ? & ?);
        generalize dependent (exec server (findElementsByPattern rx t) s l).1.2;
        intros
    end.
    simpl in *.
    destruct (result server (findElementsByPattern rx (Js.trim (searchTerm st))))
      as [|only [|other more]]; simpl.
    + unfold display; simpl. congruence.
    + destruct (server _ (GetDataElement (mr_name only))); simpl;
        repeat (case_bool_decide; simpl); unfold display; simpl; congruence.
    + unfold display; simpl. congruence.
  - reflexivity.
Qed.

End NoMatch.

(** C3, witness: the query "nonexistentzzz" against the catalog. *)
Lemma no_match_state_witness :
  let st := Catalog.idle "nonexistentzzz" in
  let st' := Async.finalState Catalog.server (PatternSearch.handleSearch Catalog.rx st) st in
  PatternSearch.error st' =
    Some ("No data elements found containing " ++ PatternSearch.quote ++ "nonexistentzzz"
          ++ PatternSearch.quote)%string ∧
  PatternSearch.loading st' = false ∧
  PatternSearch.element st' = None ∧
  PatternSearch.matchingElements st' = [] ∧
  PatternSearch.isPartialSearch st' = true ∧
  PatternSearch.recentSearches st' = [].
Proof.
  intros st.
  apply (no_match_state Catalog.rx Catalog.server st); vm_compute; reflexivity.
Defined.

(** C3, counterexample: the exact lookup of "nonexistentzzz" misses, the
    pattern search finds nothing, and the query is not in the recent
    searches afterwards. *)
Lemma no_match_not_recorded :
  let st := Catalog.idle "nonexistentzzz" in
  Catalog.server _ (Api.GetDataElement "nonexistentzzz") = Api.NotOk ∧
  Async.result Catalog.server
    (PatternSearch.findElementsByPattern Catalog.rx "nonexistentzzz") = [] ∧
  "nonexistentzzz" ∉
    PatternSearch.recentSearches
      (Async.finalState Catalog.server (PatternSearch.handleSearch Catalog.rx st) st).
Proof.
  split; [reflexivity|]. split; [vm_compute; reflexivity|].
  vm_compute. apply not_elem_of_nil.
Qed.

(** C8, witness: "subjectkey" searched from the idle state and from the
    state a finished search for "taps" left. *)
Lemma finished_search_is_superseded_witness :
  let st := Catalog.idle "subjectkey" in
  let st' := PatternSearch.setSearchTerm "subjectkey" (fst Catalog.searchTwice) in
  PatternSearch.display
    (Async.finalState Catalog.server (PatternSearch.handleSearch Catalog.rx st') st') =
  PatternSearch.display
    (Async.finalState Catalog.server (PatternSearch.handleSearch Catalog.rx st) st).
Proof.
  intros st st'.
  apply (finished_search_is_superseded Catalog.rx Catalog.server st st'); reflexivity.
Defined.

(** C8, counterexample. Search A for "taps" is waiting for its batch of structure details when search B for
    "subjectkey" is started. Both run to their end, and the page then
    shows the element "tap_count" that A selected and A's matching
    elements, where B alone ends on the element "subjectkey" and no
    matching elements. *)
Lemma stale_search_overwrites :
  Async.awaiting (snd Catalog.searchInFlight) =
    [ Api.call (Api.GetDataStructure "ndar_subject01");
      Api.call (Api.GetDataStructure "bmi01");
      Api.call (Api.GetDataStructure "tapping01") ] ∧
  let '(st, a, b) := Catalog.overlappingSearches in
  Async.settled a = true ∧ Async.settled b = true ∧
  PatternSearch.searchTerm st = "subjectkey" ∧
  Api.ed_name <$> PatternSearch.element st = Some "tap_count" ∧
  PatternSearch.mr_name <$> PatternSearch.matchingElements st = ["tap_count"] ∧
  Api.ed_name <$> PatternSearch.element Catalog.secondSearchAlone = Some "subjectkey" ∧
  PatternSearch.matchingElements Catalog.secondSearchAlone = [] ∧
  PatternSearch.display st ≠ PatternSearch.display Catalog.secondSearchAlone.
Proof.
  vm_compute. repeat split. discriminate.
Qed.

(** ** Repeated retrieval *)

(** C2. Nothing is kept from one retrieval to the next: a call of
    [findElementsByPattern] sends the structure fetches it would send in
    a fresh session, whatever was fetched before. So two searches for
    "taps" in one session, the second after the first has finished,
    fetch the detail of structure "ndar_subject01" twice. *)
Theorem second_search_fetches_again :
  (∀ rx server term st st' log id,
     Api.structureFetches id
       (Async.exec server (PatternSearch.findElementsByPattern rx term) st' log).2 =
     Api.structureFetches id log +
     Api.structureFetches id
       (Async.exec server (PatternSearch.findElementsByPattern rx term) st []).2) ∧
  Api.structureFetches "ndar_subject01" (snd Catalog.searchTwice) = 2 ∧
  Api.structureFetches "bmi01" (snd Catalog.searchTwice) = 2.
Proof.
  split; [|vm_compute; done].
  intros rx server term st st' log id.
  rewrite (exec_log server _ st' st log).
  unfold Api.structureFetches. by rewrite filter_app, length_app.
Qed.

(** ** The sort *)

Section Sort.
Import JsArray PatternSearch.

Lemma insertBy_perm {A} (after : A → A → bool) x l : insertBy after x l ≡ₚ x :: l.
Proof.
  induction l as [|y l IH]; simpl; [done|].
  destruct (after x y); [|done]. rewrite IH. apply Permutation_swap.
Qed.

Lemma sort_perm {A} (after : A → A → bool) l : sort after l ≡ₚ l.
Proof.
  induction l as [|x l IH]; simpl; [done|].
  fold (sort after l). by rewrite insertBy_perm, IH.
Qed.

Lemma lowerRelevance_lt a b : lowerRelevance a b = (relevance a <? relevance b)%Z.
Proof. unfold lowerRelevance. destruct (Z.ltb_spec (relevance a) (relevance b)); lia. Qed.

Lemma insertBy_descending x l :
  descending l → descending (insertBy lowerRelevance x l).
Proof.
  unfold descending. induction 1 as [|y l Hl IH Hy]; simpl.
  - repeat constructor.
  - rewrite lowerRelevance_lt. destruct (Z.ltb_spec (relevance x) (relevance y)).
    + constructor; [done|]. rewrite insertBy_perm. constructor; [lia|done].
    + constructor; [by constructor|].
      constructor; [lia|]. eapply Forall_impl; [done|]. simpl. intros; lia.
Qed.

Lemma sort_descending l : descending (sort lowerRelevance l).
Proof.
  induction l as [|x l IH]; simpl; [constructor|].
  by apply insertBy_descending.
Qed.

Lemma withRelevance_insertBy v x l :
  withRelevance v (insertBy lowerRelevance x l) = withRelevance v (x :: l).
Proof.
  unfold withRelevance. induction l as [|y l IH]; simpl; [done|].
  rewrite lowerRelevance_lt. destruct (Z.ltb_spec (relevance x) (relevance y)); [|done].
  rewrite !filter_cons in *. rewrite IH.
  repeat case_decide; try done; lia.
Qed.

Lemma withRelevance_sort v l :
  withRelevance v (sort lowerRelevance l) = withRelevance v l.
Proof.
  induction l as [|x l IH]; simpl; [done|].
  fold (sort lowerRelevance l). rewrite withRelevance_insertBy.
  unfold withRelevance in *. by rewrite !filter_cons, IH.
Qed.

Lemma withRelevance_nil_all l : (∀ v, withRelevance v l = []) → l = [].
Proof.
  destruct l as [|y l]; [done|]. intros H. specialize (H (relevance y)).
  unfold withRelevance in H. rewrite filter_cons in H. by case_decide.
Qed.

Lemma withRelevance_elem v r l : r ∈ withRelevance v l ↔ relevance r = v ∧ r ∈ l.
Proof. unfold withRelevance. by rewrite list_elem_of_filter. Qed.

(** Two descending lists with the same records of every relevance, in the
    same order, are the same list. *)
Lemma sort_unique l1 :
  ∀ l2, descending l1 → descending l2 →
        (∀ v, withRelevance v l1 = withRelevance v l2) → l1 = l2.
Proof.
  induction l1 as [|x l1 IH]; intros l2 H1 H2 Heq.
  - symmetry. apply withRelevance_nil_all. intros v. by rewrite <-Heq.
  - destruct l2 as [|y l2].
    { apply withRelevance_nil_all. intros v. by rewrite Heq. }
    apply StronglySorted_inv in H1 as [H1 Hx].
    apply StronglySorted_inv in H2 as [H2 Hy].
    assert (relevance x = relevance y) as Hxy.
    { destruct (decide (relevance x = relevance y)) as [|Hne]; [done|].
      assert (y ∈ x :: l1) as Hin1.
      { apply (withRelevance_elem (relevance y)). rewrite Heq.
        apply withRelevance_elem. split; [done|left]. }
      assert (x ∈ y :: l2) as Hin2.
      { apply (withRelevance_elem (relevance x)). rewrite <-Heq.
        apply withRelevance_elem. split; [done|left]. }
      apply elem_of_cons in Hin1 as [->|Hin1]; [done|].
      apply elem_of_cons in Hin2 as [->|Hin2]; [done|].
      rewrite Forall_forall in Hx, Hy.
      specialize (Hx _ Hin1). specialize (Hy _ Hin2). simpl in *. lia. }
    pose proof (Heq (relevance x)) as Hhead.
    unfold withRelevance in Hhead. rewrite !filter_cons in Hhead.
    rewrite decide_True in Hhead by done. rewrite decide_True in Hhead by done.
    injection Hhead as -> Htail. f_equal. apply IH; [done..|].
    intros v. specialize (Heq v). unfold withRelevance in *.
    rewrite !filter_cons in Heq. case_decide; [|done]. by injection Heq.
Qed.

End Sort.

(** ** The map of found elements *)

Section FoundElements.
Import JsMap PatternSearch.

Lemma get_set {V} (m : JsMap.t V) k v k' :
  get (set m k v) k' = if decide (k = k') then Some v else get m k'.
Proof.
  induction m as [|[k0 v0] m IH]; simpl.
  - destruct (String.eqb_spec k' k); case_decide; congruence.
  - destruct (String.eqb_spec k k0) as [->|Hk0]; simpl.
    + destruct (String.eqb_spec k' k0); case_decide; congruence.
    + destruct (String.eqb_spec k' k0) as [->|].
      * rewrite decide_False; done.
      * apply IH.
Qed.

Lemma keys_set {V} (m : JsMap.t V) k v :
  keys (set m k v) = if decide (k ∈ keys m) then keys m else keys m ++ [k].
Proof.
  unfold keys. induction m as [|[k0 v0] m IH]; simpl.
  - destruct (decide (k ∈ [])) as [[]%not_elem_of_nil|]; done.
  - destruct (String.eqb_spec k k0) as [->|Hk0]; simpl.
    + destruct (decide (k0 ∈ k0 :: map fst m)) as [|Hn]; [done|].
      exfalso. apply Hn. left.
    + rewrite IH. destruct (decide (k ∈ map fst m)) as [Hin|Hin];
        destruct (decide (k ∈ k0 :: map fst m)) as [Hin'|Hin']; try done.
      * exfalso. apply Hin'. by right.
      * apply elem_of_cons in Hin' as [?|?]; done.
Qed.

Lemma NoDup_keys_set {V} (m : JsMap.t V) k v : NoDup (keys m) → NoDup (keys (set m k v)).
Proof.
  intros H. rewrite keys_set. case_decide; [done|].
  apply NoDup_app. split; [done|]. split; [|apply NoDup_singleton].
  intros x Hx ->%list_elem_of_singleton. done.
Qed.

Lemma elem_of_get {V} (m : JsMap.t V) k v :
  NoDup (keys m) → (k, v) ∈ m ↔ get m k = Some v.
Proof.
  unfold keys. induction m as [|[k0 v0] m IH]; simpl; intros Hnd.
  - split; [intros []%not_elem_of_nil|done].
  - apply NoDup_cons in Hnd as [Hk0 Hnd]. rewrite elem_of_cons, (IH Hnd).
    destruct (String.eqb_spec k k0) as [->|Hne].
    + split.
      * intros [[= ->]|Hget]; [done|].
        exfalso. apply Hk0. apply (IH Hnd) in Hget.
        apply list_elem_of_fmap. by exists (k0, v).
      * intros [= ->]. by left.
    + split; [intros [[= ? ?]|?]; done|by right].
Qed.

Lemma elem_of_set {V} (m : JsMap.t V) k v k' v' :
  (k', v') ∈ set m k v → (k', v') = (k, v) ∨ (k', v') ∈ m.
Proof.
  induction m as [|[k0 v0] m IH]; simpl.
  - intros ->%list_elem_of_singleton. by left.
  - destruct (String.eqb_spec k k0) as [->|Hne]; rewrite !elem_of_cons; [tauto|].
    intros [?|?]; [tauto|]. destruct IH; tauto.
Qed.

Lemma afterWrites_invariant found ws :
  NoDup (keys found) → namedRight found →
  NoDup (keys (afterWrites found ws)) ∧ namedRight (afterWrites found ws).
Proof.
  revert found. induction ws as [|r ws IH]; intros found Hnd Hnames; simpl; [done|].
  apply IH.
  - by apply NoDup_keys_set.
  - intros k r' [[= -> ->]|Hin]%elem_of_set; [done|]. by apply Hnames.
Qed.

Lemma get_afterWrites found ws n :
  get (afterWrites found ws) n =
  match lastWrite n ws with
  | Some r => Some r
  | None => get found n
  end.
Proof.
  revert found. induction ws as [|r ws IH]; intros found; simpl; [done|].
  rewrite IH. destruct (lastWrite n ws); [done|].
  unfold storeRecord. rewrite get_set.
  destruct (String.eqb_spec n (mr_name r)); case_decide; congruence.
Qed.

Lemma lastWrite_None n ws : lastWrite n ws = None ↔ n ∉ mr_name <$> ws.
Proof.
  induction ws as [|a ws IH].
  - split; [intros _; apply not_elem_of_nil|done].
  - rewrite fmap_cons, not_elem_of_cons, <-IH. simpl.
    destruct (lastWrite n ws); [split; [done|intros [_ ?]; done]|].
    destruct (String.eqb_spec n (mr_name a)); split; try done; intros [? _]; done.
Qed.

Lemma lastWrite_app n l1 l2 :
  lastWrite n (l1 ++ l2) =
  match lastWrite n l2 with
  | Some r => Some r
  | None => lastWrite n l1
  end.
Proof.
  induction l1 as [|a l1 IH]; simpl.
  - by destruct (lastWrite n l2).
  - rewrite IH. by destruct (lastWrite n l2).
Qed.

Lemma lastWrite_found n ws r :
  lastWrite n ws = Some r →
  mr_name r = n ∧ ∃ before after, ws = before ++ r :: after ∧ n ∉ mr_name <$> after.
Proof.
  induction ws as [|w ws IH]; simpl; [done|].
  destruct (lastWrite n ws) as [r'|] eqn:E.
  - intros [= ->]. destruct (IH eq_refl) as (Hn & before & after & -> & Hafter).
    split; [done|]. by exists (w :: before), after.
  - destruct (String.eqb_spec n (mr_name w)) as [Hn|Hn]; [|done].
    intros [= ->]. split; [done|]. exists [], ws. split; [done|].
    by apply lastWrite_None.
Qed.

Lemma lastWrite_Some n ws r :
  lastWrite n ws = Some r ↔
  mr_name r = n ∧ ∃ before after, ws = before ++ r :: after ∧ n ∉ mr_name <$> after.
Proof.
  split; [apply lastWrite_found|].
  intros (Hn & before & after & -> & Hafter).
  rewrite lastWrite_app. simpl.
  apply lastWrite_None in Hafter. rewrite Hafter.
  destruct (String.eqb_spec n (mr_name r)); done.
Qed.

(** The values of the map after the writes are the last writes. *)
Lemma values_afterWrites ws r :
  r ∈ values (afterWrites empty ws) ↔ lastWrite (mr_name r) ws = Some r.
Proof.
  destruct (afterWrites_invariant empty ws) as [Hnd Hnames].
  { apply NoDup_nil_2. } { intros k r' []%not_elem_of_nil. }
  unfold values. rewrite list_elem_of_fmap. split.
  - intros ([k r'] & -> & Hin). simpl.
    rewrite (Hnames _ _ Hin).
    apply (elem_of_get _ _ _ Hnd) in Hin. by rewrite get_afterWrites in Hin; destruct (lastWrite k ws).
  - intros H. exists (mr_name r, r). split; [done|].
    apply (elem_of_get _ _ _ Hnd). by rewrite get_afterWrites, H.
Qed.

Lemma NoDup_names_afterWrites ws : NoDup (mr_name <$> values (afterWrites empty ws)).
Proof.
  destruct (afterWrites_invariant empty ws) as [Hnd Hnames].
  { apply NoDup_nil_2. } { intros k r' []%not_elem_of_nil. }
  unfold values.
  replace (mr_name <$> (map snd (afterWrites empty ws))) with (keys (afterWrites empty ws));
    [done|].
  unfold keys. revert Hnames. generalize (afterWrites empty ws). clear.
  induction l as [|[k r] l IH]; intros Hnames; simpl; [done|].
  f_equal.
  - symmetry. apply Hnames. left.
  - apply IH. intros k' r' Hin. apply Hnames. by right.
Qed.

End FoundElements.

(** ** The match aggregator *)

Section Aggregator.
Import Api Async JsMap PatternSearch.
Context (rx : RegExp.Engine).

Lemma afterWrites_app found l1 l2 :
  afterWrites found (l1 ++ l2) = afterWrites (afterWrites found l1) l2.
Proof. apply foldl_app. Qed.

Lemma scanElements_writes q s elements :
  ∀ found,
    foldl (scanElement rx q s) found elements =
    afterWrites found
      (map (matchRecord rx q s)
           (filter (λ e, nameMatches rx q e || descMatches rx q e = true) elements)).
Proof.
  induction elements as [|e es IH]; intros found; simpl; [done|].
  rewrite IH, filter_cons. unfold scanElement.
  destruct (nameMatches rx q e || descMatches rx q e) eqn:E.
  - rewrite decide_True by done. reflexivity.
  - rewrite decide_False by done. reflexivity.
Qed.

Lemma scanBatch_writes q m :
  ∀ found, scanBatch rx q found m = afterWrites found (writes rx q m).
Proof.
  unfold scanBatch, writes.
  induction m as [|[s elements] m IH]; intros found; simpl; [done|].
  rewrite IH, scanElements_writes, afterWrites_app. reflexivity.
Qed.

Lemma scanBatch_app q found m1 m2 :
  scanBatch rx q found (m1 ++ m2) = scanBatch rx q (scanBatch rx q found m1) m2.
Proof. apply foldl_app. Qed.

Lemma calculateRelevance_bound element searchTerm matchType :
  (15 ≤ calculateRelevance element searchTerm matchType)%Z.
Proof.
  unfold calculateRelevance.
  destruct matchType, (String.eqb _ _), (Js.startsWith _ _); lia.
Qed.

Lemma result_bind {St R S} (server : Server) (t : Task St R) (f : R → Task St S) :
  result server (t ≫= f) = result server (f (result server t)).
Proof. induction t as [r|g k IH|A req k IH|A reqs k IH]; simpl; [done|apply IH..]. Qed.

Lemma processBatches_result server q total batches :
  ∀ batchIndex found cache,
  ∃ m, result server (processBatches rx q total batches batchIndex found cache) =
       scanBatch rx q found m.
Proof.
  induction batches as [|batch rest IH]; intros batchIndex found cache; simpl.
  - by exists [].
  - match goal with
    | |- context [scanBatch rx q found ?m1] =>
        destruct (IH (S batchIndex) (scanBatch rx q found m1)
                     (applyCacheWrites cache
                        (map snd (settle (map (fetchStructure cache) batch)
                           (map (server StructureDetail)
                              (pendingRequests (map (fetchStructure cache) batch)))))))
          as [m2 Hm2];
        exists (m1 ++ m2)
    end.
    rewrite scanBatch_app, <-Hm2.
    destruct (batchIndex <? total - 1); reflexivity.
Qed.

(** What [findElementsByPattern] returns is the aggregate of the
    structures it retrieved. *)
Lemma findElementsByPattern_aggregate server term :
  ∃ m, result server (findElementsByPattern rx term) = aggregate rx (Js.toLowerCase term) m.
Proof.
  unfold findElementsByPattern. rewrite !result_bind.
  destruct (structureArrays _) as [arrays|].
  - rewrite !result_bind. simpl.
    destruct (processBatches_result server (Js.toLowerCase term)
                (length (JsArray.slices batchSize
                   (JsArray.unique (map shortName (omap id (concat arrays))))))
                (JsArray.slices batchSize
                   (JsArray.unique (map shortName (omap id (concat arrays)))))
                0 empty empty) as [m Hm].
    exists m. by rewrite Hm.
  - by exists [].
Qed.

(** C5. The aggregated list has exactly one record for every element
    name that the scan wrote, also when the name was found under several
    structures, and that record is the last one written for the name.
    The list that [findElementsByPattern] returns has no two records of
    one name either. *)
Theorem aggregate_one_record_per_name :
  (∀ searchTerm elementsByStructure,
     let out := aggregate rx searchTerm elementsByStructure in
     let written := writes rx searchTerm elementsByStructure in
     NoDup (mr_name <$> out) ∧
     (∀ n, n ∈ mr_name <$> out ↔ n ∈ mr_name <$> written) ∧
     (∀ r, r ∈ out ↔
           ∃ before after,
             written = before ++ r :: after ∧ mr_name r ∉ mr_name <$> after)) ∧
  (∀ server term, NoDup (mr_name <$> result server (findElementsByPattern rx term))).
Proof.
  assert (∀ q m, NoDup (mr_name <$> aggregate rx q m)) as Hnodup.
  { intros q m. unfold aggregate. rewrite (sort_perm lowerRelevance), scanBatch_writes.
    apply NoDup_names_afterWrites. }
  split.
  - intros searchTerm elementsByStructure out written.
    assert (∀ r, r ∈ out ↔ lastWrite (mr_name r) written = Some r) as Hout.
    { intros r. unfold out, aggregate.
      rewrite (sort_perm lowerRelevance), scanBatch_writes. apply values_afterWrites. }
    split; [apply Hnodup|]. split.
    + intros n. rewrite list_elem_of_fmap. split.
      * intros (r & -> & Hr).
        apply Hout, lastWrite_Some in Hr as (_ & before & after & -> & _).
        rewrite fmap_app, fmap_cons. apply elem_of_app. right. left.
      * intros Hn. destruct (lastWrite n written) as [r|] eqn:E.
        -- apply lastWrite_found in E as Hr. destruct Hr as [<- _].
           exists r. split; [done|]. by apply Hout.
        -- by apply lastWrite_None in E.
    + intros r. rewrite Hout, lastWrite_Some. split.
      * intros [_ H]. exact H.
      * intros H. split; [reflexivity|exact H].
  - intros server term.
    destruct (findElementsByPattern_aggregate server term) as [m ->]. apply Hnodup.
Qed.

(** C6. The aggregated list is in descending order of relevance, records
    of equal relevance stand in the order in which the scan found them,
    and these two properties fix the list: every stable descending
    arrangement of the found records is the list the aggregator returns,
    so two runs on the same mapping and query return the same list. The
    list that [findElementsByPattern] returns is in descending order. *)
Theorem aggregate_sorted_stable :
  (∀ searchTerm elementsByStructure,
     let found := values (scanBatch rx searchTerm empty elementsByStructure) in
     let out := aggregate rx searchTerm elementsByStructure in
     descending out ∧
     out ≡ₚ found ∧
     (∀ v, withRelevance v out = withRelevance v found) ∧
     (∀ out', descending out' →
              (∀ v, withRelevance v out' = withRelevance v found) →
              out' = out)) ∧
  (∀ server term, descending (result server (findElementsByPattern rx term))).
Proof.
  split.
  - intros searchTerm elementsByStructure found out. unfold out, aggregate. fold found.
    split; [apply sort_descending|].
    split; [apply sort_perm|].
    split; [intros v; apply withRelevance_sort|].
    intros out' Hsorted Hstable. apply sort_unique; [done|apply sort_descending|].
    intros v. by rewrite Hstable, withRelevance_sort.
  - intros server term.
    destruct (findElementsByPattern_aggregate server term) as [m ->].
    apply sort_descending.
Qed.

(** C10. Every record of a result list has relevance at least 15: the
    base score of the match type is at least 25, the bonuses for an equal
    name and for a prefix add to it, and the length penalty is at most
    10. This holds for the scoring function, for the aggregator on any
    mapping, and for what [findElementsByPattern] returns. *)
Theorem relevance_at_least_15 :
  (∀ element searchTerm matchType,
     (15 ≤ calculateRelevance element searchTerm matchType)%Z) ∧
  (∀ searchTerm elementsByStructure r,
     r ∈ aggregate rx searchTerm elementsByStructure → (15 ≤ relevance r)%Z) ∧
  (∀ server term r,
     r ∈ result server (findElementsByPattern rx term) → (15 ≤ relevance r)%Z).
Proof.
  assert (∀ q m r, r ∈ aggregate rx q m → (15 ≤ relevance r)%Z) as Hagg.
  { intros q m r Hr. unfold aggregate in Hr.
    rewrite (sort_perm lowerRelevance), scanBatch_writes in Hr.
    apply values_afterWrites, lastWrite_found in Hr as (_ & before & after & Hw & _).
    assert (r ∈ writes rx q m) as Hin.
    { rewrite Hw. apply elem_of_app. right. left. }
    unfold writes in Hin. apply list_elem_of_In, in_flat_map in Hin as ([s es] & _ & Hin).
    apply in_map_iff in Hin as (e & <- & _).
    apply calculateRelevance_bound. }
  split; [apply calculateRelevance_bound|]. split; [done|].
  intros server term r Hr.
  destruct (findElementsByPattern_aggregate server term) as [m Hm].
  rewrite Hm in Hr. by eapply Hagg.
Qed.

End Aggregator.

(** ** Whole-word matching *)

Section WholeWords.
Import RegExp WordFacts.

Lemma lastOr_cons prev c l : lastOr prev (c :: l) = lastOr (Some c) l.
Proof.
  unfold lastOr. destruct l as [|d l]; [done|].
  rewrite last_cons_cons. destruct (last (d :: l)) eqn:E; [done|].
  by apply last_None in E.
Qed.

Lemma lastOr_app prev l1 l2 : lastOr prev (l1 ++ l2) = lastOr (lastOr prev l1) l2.
Proof.
  revert prev. induction l1 as [|c l1 IH]; intros prev; simpl.
  - unfold lastOr at 2. done.
  - by rewrite !lastOr_cons, IH.
Qed.

Lemma last_lastOr l : last l = lastOr None l.
Proof. unfold lastOr. by destruct (last l). Qed.

Lemma matchHere_literals word atoms :
  ∀ prev rest,
    matchHere (map Literal word ++ atoms) prev rest = true ↔
    ∃ found after,
      rest = found ++ after ∧
      map canonicalize found = map canonicalize word ∧
      matchHere atoms (lastOr prev found) after = true.
Proof.
  induction word as [|x word IH]; intros prev rest; simpl.
  - split.
    + intros H. by exists [], rest.
    + intros (found & after & -> & Hf & H). by destruct found.
  - destruct rest as [|c r].
    + split; [done|]. intros (found & after & Hr & Hf & _).
      destruct found; [done|]. done.
    + rewrite andb_true_iff, IH. split.
      * intros [Hc (found & after & -> & Hf & H)].
        exists (c :: found), after. split; [done|]. split.
        -- simpl. apply Ascii.eqb_eq in Hc. by rewrite Hc, Hf.
        -- by rewrite lastOr_cons.
      * intros (found & after & Hr & Hf & H).
        destruct found as [|c' found]; [done|].
        simpl in Hr, Hf. injection Hr as <- ->. injection Hf as Hc Hf.
        split; [by apply Ascii.eqb_eq|].
        exists found, after. split; [done|]. split; [done|].
        by rewrite lastOr_cons in H.
Qed.

Lemma searchFrom_spec atoms :
  ∀ rest prev,
    searchFrom atoms prev rest = true ↔
    ∃ before here,
      rest = before ++ here ∧ matchHere atoms (lastOr prev before) here = true.
Proof.
  induction rest as [|c r IH]; intros prev; simpl.
  - rewrite orb_false_r. split.
    + intros H. by exists [], [].
    + intros (before & here & Hr & H).
      symmetry in Hr. apply app_eq_nil in Hr as [-> ->]. done.
  - rewrite orb_true_iff, IH. split.
    + intros [H|(before & here & -> & H)].
      * by exists [], (c :: r).
      * exists (c :: before), here. split; [done|]. by rewrite lastOr_cons.
    + intros (before & here & Hr & H). destruct before as [|c' before].
      * left. simpl in Hr. by subst here.
      * right. simpl in Hr. injection Hr as <- ->.
        exists before, here. split; [done|]. by rewrite lastOr_cons in H.
Qed.

(** The search for the literal word between word boundaries decides the
    whole-word occurrence. *)
Lemma wholeWord_occurs word text :
  searchFrom (wholeWord word) None text = true ↔ occursAsWord word text.
Proof.
  unfold occursAsWord, wholeWord, boundaryBetween. rewrite searchFrom_spec. split.
  - intros (before & here & -> & H). simpl in H.
    apply andb_true_iff in H as [Hb H].
    apply matchHere_literals in H as (found & after & -> & Hf & H).
    simpl in H. rewrite andb_true_r in H.
    exists before, found, after. rewrite !last_lastOr, lastOr_app. done.
  - intros (before & found & after & -> & Hf & Hb1 & Hb2).
    exists before, (found ++ after). split; [done|]. simpl.
    rewrite last_lastOr in Hb1. rewrite Hb1. simpl.
    apply matchHere_literals. exists found, after. split; [done|]. split; [done|].
    simpl. rewrite andb_true_r. by rewrite last_lastOr, lastOr_app in Hb2.
Qed.





Lemma fragmentEngine_implements : implements fragmentEngine.
Proof. intros source text b H. unfold fragmentEngine. by rewrite H. Qed.

(** The query "tap" and the word "tapping": no match. The query "tap"
    and the word "taps": a match through the plural of the query. *)
Lemma tap_tapping_taps (rx : Engine) :
  implements rx →
  PatternSearch.searchWords "tap" = ["tap"; "taps"] ∧
  existsb (PatternSearch.containsWord rx "finger tapping test")
          (PatternSearch.searchWords "tap") = false ∧
  PatternSearch.containsWord rx "taps" "tap" = false ∧
  existsb (PatternSearch.containsWord rx "taps") (PatternSearch.searchWords "tap") = true ∧
  existsb (PatternSearch.containsWord rx "number of taps made")
          (PatternSearch.searchWords "tap") = true.
Proof.
  intros Hrx. unfold PatternSearch.containsWord. simpl.
  repeat match goal with
  | |- context [rx ?s ?t] =>
      let b := eval vm_compute in (test s t) in
      match b with
      | Some ?v => rewrite (Hrx s t v) by (vm_compute; reflexivity)
      end
  end.
  done.
Qed.

(** C4. [containsWord] reads the query as a pattern: the query "z.score"
    matches the text "bmi z-score", in which neither "z.score" nor its
    plural "z.scores" stands as a word. *)
Theorem containsWord_reads_query_as_pattern (rx : Engine) :
  implements rx →
  PatternSearch.containsWord rx "bmi z-score" "z.score" = true ∧
  PatternSearch.searchWords "z.score" = ["z.score"; "z.scores"] ∧
  ¬ occursAsWord (Js.chars "z.score") (Js.chars "bmi z-score") ∧
  ¬ occursAsWord (Js.chars "z.scores") (Js.chars "bmi z-score").
Proof.
  intros Hrx. split; [|split; [done|]].
  - unfold PatternSearch.containsWord. by apply Hrx.
  - split; rewrite <-wholeWord_occurs; vm_compute; discriminate.
Qed.

End WholeWords.

(** C4, witness: the engine of the fragment. *)
Lemma containsWord_reads_query_as_pattern_witness :
  RegExp.implements RegExp.fragmentEngine ∧
  PatternSearch.containsWord RegExp.fragmentEngine "bmi z-score" "z.score" = true.
Proof.
  split; [apply fragmentEngine_implements|].
  apply (containsWord_reads_query_as_pattern RegExp.fragmentEngine).
  apply fragmentEngine_implements.
Defined.

(** ** Structure fetches of one pattern search *)

Section FetchCount.
Import Api Async JsArray TaskFacts PatternSearch.
Context (rx : RegExp.Engine).

Lemma structureFetches_app id l1 l2 :
  structureFetches id (l1 ++ l2) = structureFetches id l1 + structureFetches id l2.
Proof. unfold structureFetches. by rewrite filter_app, length_app. Qed.

Lemma pending_fetches id cache batch :
  structureFetches id
    (map call (pendingRequests (map (fetchStructure cache) batch)))
  ≤ occurrences id batch.
Proof.
  unfold structureFetches, occurrences, pendingRequests.
  induction batch as [|s batch IH]; simpl; [done|].
  rewrite filter_cons. unfold fetchStructure at 1.
  destruct (JsMap.get cache s); simpl.
  - case_decide; simpl; (etrans; [apply IH|]); lia.
  - rewrite filter_cons. simpl.
    destruct (String.eqb_spec s id); repeat case_decide; simpl; try done;
      try apply le_n_S; (etrans; [apply IH|]); lia.
Qed.

Lemma processBatches_fetches id server q total batches :
  ∀ batchIndex found cache st log,
    structureFetches id
      (exec server (processBatches rx q total batches batchIndex found cache) st log).2
    ≤ structureFetches id log + occurrences id (concat batches).
Proof.
  induction batches as [|batch rest IH]; intros batchIndex found cache st log; simpl.
  - lia.
  - unfold occurrences in *. rewrite filter_app, length_app.
    pose proof (pending_fetches id cache batch) as Hbatch. unfold occurrences in Hbatch.
    destruct (batchIndex <? total - 1); simpl.
    + etrans; [apply IH|]. rewrite !structureFetches_app.
      change (structureFetches id [call (Sleep 20)]) with 0. lia.
    + etrans; [apply IH|]. rewrite !structureFetches_app. lia.
Qed.

Lemma concat_slices_upto n (l : list string) :
  ∀ m, length l ≤ m * n →
       concat (map (λ k, take n (drop (k * n) l)) (seq 0 m)) = l.
Proof.
  intros m. revert l. induction m as [|m IH]; intros l Hl; simpl.
  - destruct l; [done|]. simpl in Hl. lia.
  - rewrite <-seq_shift, map_map.
    transitivity (take n l ++ drop n l); [|apply take_drop]. f_equal.
    etrans; [|apply (IH (drop n l)); rewrite length_drop; lia].
    f_equal. apply map_ext. intros k. by rewrite drop_drop.
Qed.

Lemma concat_slices n (l : list string) : 0 < n → concat (slices n l) = l.
Proof.
  intros Hn. unfold slices. apply concat_slices_upto.
  pose proof (Nat.div_mod_eq (length l + (n - 1)) n) as Hdiv.
  pose proof (Nat.mod_upper_bound (length l + (n - 1)) n) as Hmod.
  nia.
Qed.

Lemma unique_NoDup l : NoDup (unique l).
Proof.
  unfold unique.
  assert (∀ seen, NoDup seen →
            NoDup (foldl (λ seen x, if bool_decide (x ∈ seen) then seen else seen ++ [x])
                         seen l)) as H.
  { induction l as [|x l IH]; intros seen Hseen; simpl; [done|].
    apply IH. case_bool_decide; [done|].
    apply NoDup_app. split; [done|]. split; [|apply NoDup_singleton].
    intros y Hy ->%list_elem_of_singleton. done. }
  apply H, NoDup_nil_2.
Qed.

Lemma occurrences_NoDup id l : NoDup l → occurrences id l ≤ 1.
Proof.
  unfold occurrences. induction 1 as [|x l Hx Hl IH]; simpl; [lia|].
  rewrite filter_cons. case_decide; simpl; [|done]. subst x.
  destruct (filter (λ s, s = id) l) as [|y ys] eqn:E; [simpl; lia|].
  assert (y ∈ filter (λ s, s = id) l) as Hy by (rewrite E; left).
  apply list_elem_of_filter in Hy as [-> Hy]. done.
Qed.

(** One pattern search asks for the detail of a structure at most once:
    the discovered names are without duplicates and the batches split
    them. *)
Lemma findElementsByPattern_fetches_once id server term st :
  structureFetches id (exec server (findElementsByPattern rx term) st []).2 ≤ 1.
Proof.
  unfold findElementsByPattern. rewrite !exec_bind.
  destruct (structureArrays _) as [arrays|]; [|vm_compute; lia].
  rewrite !exec_bind. simpl.
  etrans; [apply processBatches_fetches|].
  rewrite concat_slices by (unfold batchSize; lia).
  change (structureFetches id _) with 0. simpl.
  apply occurrences_NoDup, unique_NoDup.
Qed.

End FetchCount.

(** ** The aggregator on two structures that share an element *)

(** The scan writes "tap" twice, as a name match under "tapping01" and as
    a match of both under "motor01". The list keeps the second record,
    stands in descending order, and keeps "hand" before "foot", which
    have the same relevance and were found in that order. *)
Example aggregate_tapStructures :
  Catalog.summaryOf <$> PatternSearch.writes Catalog.rx "tap" Catalog.tapStructures =
    [ ("tap", "tapping01", PatternSearch.nameOnly, 150%Z);
      ("hand", "tapping01", PatternSearch.descriptionOnly, 24%Z);
      ("tap", "motor01", PatternSearch.both, 175%Z);
      ("taps_left", "motor01", PatternSearch.descriptionOnly, 44%Z);
      ("foot", "motor01", PatternSearch.descriptionOnly, 24%Z) ] ∧
  Catalog.summaryOf <$> PatternSearch.aggregate Catalog.rx "tap" Catalog.tapStructures =
    [ ("tap", "motor01", PatternSearch.both, 175%Z);
      ("taps_left", "motor01", PatternSearch.descriptionOnly, 44%Z);
      ("hand", "tapping01", PatternSearch.descriptionOnly, 24%Z);
      ("foot", "motor01", PatternSearch.descriptionOnly, 24%Z) ].
Proof. vm_compute. done. Qed.

(** * Further properties *)

(** ** The edit distance is a metric *)

Section EditMetric.
Import TokenScorer.

Lemma lev_nil_l t : lev [] t = length t.
Proof. reflexivity. Qed.

Lemma lev_upper s : ∀ t, lev s t ≤ Nat.max (length s) (length t).
Proof.
  induction s as [|a s IHs]; intros t; [simpl; lia|].
  induction t as [|b t IHt]; [rewrite lev_nil_r; lia|].
  rewrite lev_cons_cons. specialize (IHs t). simpl length in *.
  case_decide; lia.
Qed.

Lemma lev_lower s : ∀ t, length s - length t ≤ lev s t ∧ length t - length s ≤ lev s t.
Proof.
  induction s as [|a s IHs]; intros t; [simpl; lia|].
  induction t as [|b t IHt]; [rewrite lev_nil_r; simpl; lia|].
  rewrite lev_cons_cons.
  pose proof (IHs t). pose proof (IHs (b :: t)). simpl length in *.
  case_decide; lia.
Qed.

Lemma lev_zero s : ∀ t, lev s t = 0 → s = t.
Proof.
  induction s as [|a s IHs]; intros t.
  - simpl. by intros ->%nil_length_inv.
  - destruct t as [|b t]; [rewrite lev_nil_r; done|].
    rewrite lev_cons_cons. case_decide as Hab; [|lia].
    intros Hz. subst b. f_equal. apply IHs. lia.
Qed.

Lemma lev_triangle_upto n :
  ∀ s t u, length s + length t + length u < n → lev s u ≤ lev s t + lev t u.
Proof.
  induction n as [|n IH]; intros s t u Hn; [lia|].
  destruct s as [|a s].
  { simpl. pose proof (lev_lower t u). lia. }
  destruct u as [|c u].
  { rewrite !lev_nil_r. pose proof (lev_lower (a :: s) t). lia. }
  destruct t as [|b t].
  { rewrite lev_nil_r. change (lev [] (c :: u)) with (length (c :: u)).
    pose proof (lev_upper (a :: s) (c :: u)). lia. }
  simpl length in Hn.
  pose proof (IH s (b :: t) (c :: u)) as H1.
  pose proof (IH (a :: s) (b :: t) u) as H2.
  pose proof (IH (a :: s) t (c :: u)) as H3.
  pose proof (IH (a :: s) t u) as H4.
  pose proof (IH s t (c :: u)) as H5.
  pose proof (IH s t u) as H6.
  simpl length in *.
  specialize (H1 ltac:(lia)). specialize (H2 ltac:(lia)). specialize (H3 ltac:(lia)).
  specialize (H4 ltac:(lia)). specialize (H5 ltac:(lia)). specialize (H6 ltac:(lia)).
  pose proof (lev_cons_cons a c s u) as Eac.
  pose proof (lev_cons_cons a b s t) as Eab.
  pose proof (lev_cons_cons b c t u) as Ebc.
  destruct (decide (a = c)), (decide (a = b)), (decide (b = c));
    subst; try congruence; lia.
Qed.

Lemma lev_triangle s t u : lev s u ≤ lev s t + lev t u.
Proof. apply (lev_triangle_upto (S (length s + length t + length u))). lia. Qed.

Lemma chars_length s : length (Js.chars s) = String.length s.
Proof. unfold Js.chars. induction s as [|c s IH]; simpl; [done|]. by rewrite IH. Qed.

Lemma chars_inj s t : Js.chars s = Js.chars t → s = t.
Proof.
  unfold Js.chars. intros H.
  by rewrite <-(string_of_list_ascii_of_string s), H, string_of_list_ascii_of_string.
Qed.

(** X1. Two strings are at distance 0 only when they are the same string:
    the distance is 0 exactly for equal arguments. *)
Theorem levenshteinDistance_zero_iff (a b : string) :
  levenshteinDistance a b = Some 0 ↔ a = b.
Proof.
  rewrite levenshteinDistance_lev. split.
  - intros [= H]. apply lev_zero in H. apply chars_inj.
    by rewrite <-(rev_involutive (Js.chars a)), H, rev_involutive.
  - intros ->. by rewrite lev_diag.
Qed.

(** X2. The distance is a number, never [null]; it lies between the
    difference of the two lengths and the longer length, and the distance
    to the empty string is the length. *)
Theorem levenshteinDistance_bounds (a b : string) :
  ∃ d, levenshteinDistance a b = Some d ∧
       String.length a - String.length b ≤ d ∧
       String.length b - String.length a ≤ d ∧
       d ≤ Nat.max (String.length a) (String.length b) ∧
       levenshteinDistance a "" = Some (String.length a) ∧
       levenshteinDistance "" a = Some (String.length a).
Proof.
  exists (lev (rev (Js.chars a)) (rev (Js.chars b))).
  rewrite !levenshteinDistance_lev.
  pose proof (lev_lower (rev (Js.chars a)) (rev (Js.chars b))) as [H1 H2].
  pose proof (lev_upper (rev (Js.chars a)) (rev (Js.chars b))) as H3.
  rewrite !length_rev, !chars_length in *.
  repeat split; try done.
  - simpl. by rewrite lev_nil_r, length_rev, chars_length.
  - simpl. by rewrite length_rev, chars_length.
Qed.

(** X3. Triangle inequality: going from [a] to [c] never costs more edits
    than going through a third string [b]. *)
Theorem levenshteinDistance_triangle (a b c : string) :
  Js.num (levenshteinDistance a c) ≤
  Js.num (levenshteinDistance a b) + Js.num (levenshteinDistance b c).
Proof. rewrite !levenshteinDistance_lev. simpl. apply lev_triangle. Qed.

End EditMetric.

(** ** What one pattern search retrieves *)

Section RetrievalFacts.
Import Api Async JsArray TaskFacts PatternSearch Retrieval.
Context (rx : RegExp.Engine).

Lemma settle_resolve {A B} (server : Server) (ps : list (Promise A B)) :
  settle ps (map (server A) (pendingRequests ps)) = map (resolve server) ps.
Proof.
  unfold pendingRequests. induction ps as [|[b|req k] ps IH]; simpl; [done|..].
  - f_equal. apply IH.
  - f_equal. apply IH.
Qed.

Lemma fetchStructure_resolve server cache s :
  cacheSound server cache →
  (resolve server (fetchStructure cache s)).1 = structureElements server s.
Proof.
  intros Hc. unfold fetchStructure, structureElements.
  destruct (JsMap.get cache s) as [v|] eqn:E; simpl.
  - specialize (Hc _ _ E). unfold structureElements in Hc. by rewrite Hc.
  - by destruct (server StructureDetail (GetDataStructure s)).
Qed.

Lemma fetchStructure_write server cache s k v :
  (resolve server (fetchStructure cache s)).2 = Some (k, v) →
  k = s ∧ structureElements server k = Some (k, v).
Proof.
  unfold fetchStructure, structureElements.
  destruct (JsMap.get cache s) as [v'|]; simpl; [done|].
  destruct (server StructureDetail (GetDataStructure s)) as [data| |m] eqn:E; simpl; try done.
  destruct (dataElements data) as [es|] eqn:Ed; [|done].
  destruct (length es <? 1000); [|done].
  intros [= <- <-]. split; [done|]. by rewrite E, Ed.
Qed.

Lemma applyCacheWrites_sound server ws :
  ∀ cache,
    cacheSound server cache →
    (∀ k v, Some (k, v) ∈ ws → structureElements server k = Some (k, v)) →
    cacheSound server (applyCacheWrites cache ws).
Proof.
  unfold applyCacheWrites.
  induction ws as [|[[k v]|] ws IH]; intros cache Hc Hws; simpl; [done|..].
  - apply IH.
    + intros k' v'. rewrite get_set. case_decide as Hk; [|apply Hc].
      intros [= <-]. subst k'. apply Hws. left.
    + intros k' v' Hin. apply Hws. by right.
  - apply IH; [done|]. intros k' v' Hin. apply Hws. by right.
Qed.

Lemma omap_map_cons {A B C} (f : B → option C) (g : A → B) x l :
  omap f (map g (x :: l)) =
  match f (g x) with
  | Some y => y :: omap f (map g l)
  | None => omap f (map g l)
  end.
Proof. reflexivity. Qed.

Lemma batch_outcomes server cache batch :
  cacheSound server cache →
  omap fst (map (resolve server) (map (fetchStructure cache) batch)) =
    retrieved server batch ∧
  cacheSound server
    (applyCacheWrites cache
       (map snd (map (resolve server) (map (fetchStructure cache) batch)))).
Proof.
  intros Hc. rewrite !map_map. split.
  - unfold retrieved. induction batch as [|s batch IH]; [done|].
    rewrite omap_map_cons. cbv beta.
    pose proof (fetchStructure_resolve server cache s Hc) as E.
    unfold BatchResult, CacheWrite in *. rewrite E, IH. done.
  - apply applyCacheWrites_sound; [done|].
    intros k v Hin.
    apply list_elem_of_In, in_map_iff in Hin as (s & Hs & _).
    by apply fetchStructure_write in Hs as [_ ?].
Qed.

Lemma retrieved_app server l1 l2 :
  retrieved server (l1 ++ l2) = retrieved server l1 ++ retrieved server l2.
Proof. apply omap_app. Qed.

Lemma result_Promise_all {St A B} (server : Server) (ps : list (Promise A B)) :
  result server (Promise_all (St := St) ps) = map (resolve server) ps.
Proof. unfold Promise_all. simpl. apply settle_resolve. Qed.

Lemma exec_Promise_all {St A B} (server : Server) (ps : list (Promise A B)) (st : St) log :
  exec server (Promise_all ps) st log =
  (map (resolve server) ps, st, log ++ map call (pendingRequests ps)).
Proof. unfold Promise_all. simpl. by rewrite settle_resolve. Qed.

Lemma processBatches_cons q total batch rest batchIndex found cache :
  processBatches rx q total (batch :: rest) batchIndex found cache =
  (upd (setLoadingState (progress batchIndex (JsMap.size found)));;
   outcomes ← Promise_all (map (fetchStructure cache) batch);
   (if batchIndex <? total - 1 then fetch (Sleep 20);; mret tt else skip);;
   processBatches rx q total rest (S batchIndex)
     (scanBatch rx q found (omap fst outcomes))
     (applyCacheWrites cache (map snd outcomes))).
Proof. reflexivity. Qed.

Lemma processBatches_retrieved server q total batches :
  ∀ batchIndex found cache,
    cacheSound server cache →
    result server (processBatches rx q total batches batchIndex found cache) =
    scanBatch rx q found (retrieved server (concat batches)).
Proof.
  induction batches as [|batch rest IH]; intros batchIndex found cache Hc; [done|].
  rewrite processBatches_cons, !result_bind, result_Promise_all.
  destruct (batch_outcomes server cache batch Hc) as [Hres Hc'].
  cbn [concat]. rewrite retrieved_app, scanBatch_app, <-Hres.
  by apply IH.
Qed.

(** X4. The list a pattern search returns is the aggregate of the
    elements the service lists for the discovered structures, taken in
    the order of discovery: a structure whose fetch fails adds nothing and
    stops nothing, and the cache changes nothing. When a discovery request
    fails the list is empty. *)
Theorem findElementsByPattern_result (server : Server) (term : string) :
  result server (findElementsByPattern rx term) =
  match discovered server (Js.toLowerCase term) with
  | Some names => aggregate rx (Js.toLowerCase term) (retrieved server names)
  | None => []
  end.
Proof.
  unfold findElementsByPattern, discovered. rewrite !result_bind.
  change (result server (FetchAll ?reqs Ret)) with (map (server _) reqs).
  cbn [map]. destruct (structureArrays _) as [arrays|]; [|done].
  rewrite !result_bind. cbn [mbind option_bind].
  rewrite (processBatches_retrieved server); [|done].
  rewrite concat_slices by (unfold batchSize; lia). reflexivity.
Qed.

(** *** The requests of one pattern search *)
















End RetrievalFacts.

(** ** Candidates and batches *)

Section Batches.
Import JsArray PatternSearch.

Lemma unique_from_elem (l : list string) :
  ∀ seen x,
    x ∈ foldl (λ seen x, if bool_decide (x ∈ seen) then seen else seen ++ [x]) seen l
    ↔ x ∈ seen ∨ x ∈ l.
Proof.
  induction l as [|y l IH]; intros seen x; simpl.
  - rewrite elem_of_nil. tauto.
  - rewrite IH, elem_of_cons. case_bool_decide as Hy.
    + split; [tauto|]. intros [?|[->|?]]; tauto.
    + rewrite elem_of_app, list_elem_of_singleton. tauto.
Qed.

Lemma unique_from_NoDup (l : list string) :
  ∀ seen,
    NoDup l → (∀ x, x ∈ l → x ∉ seen) →
    foldl (λ seen x, if bool_decide (x ∈ seen) then seen else seen ++ [x]) seen l
    = seen ++ l.
Proof.
  induction l as [|y l IH]; intros seen Hnd Hfresh; simpl.
  - by rewrite app_nil_r.
  - apply NoDup_cons in Hnd as [Hy Hnd].
    rewrite bool_decide_false by (apply Hfresh; left).
    rewrite IH; [by rewrite <-app_assoc|done|].
    intros x Hx Hin. apply elem_of_app in Hin as [Hin|Hin].
    + apply (Hfresh x); [by right|done].
    + apply list_elem_of_singleton in Hin. by subst.
Qed.

(** X9. The candidate list [[...new Set(names)]] has no name twice, holds
    exactly the names that were listed, and is the listed names
    themselves, in their order, when no name was listed twice. *)
Theorem unique_spec (names : list string) :
  NoDup (unique names) ∧
  (∀ x, x ∈ unique names ↔ x ∈ names) ∧
  (NoDup names → unique names = names).
Proof.
  split; [apply unique_NoDup|]. split.
  - intros x. unfold unique. rewrite unique_from_elem, elem_of_nil. tauto.
  - intros Hnd. unfold unique. rewrite unique_from_NoDup; [done..|].
    intros x _. apply not_elem_of_nil.
Qed.

(** X10. The batches split the candidates: put one after the other they
    are the candidate list again, every batch has at least one and at most
    25 names, and there are [ceil(n / 25)] of them. *)
Theorem slices_partition (names : list string) :
  let batches := slices batchSize names in
  concat batches = names ∧
  Forall (λ batch, 1 ≤ length batch ≤ batchSize) batches ∧
  length batches = (length names + 24) / 25.
Proof.
  cbv zeta. split; [apply concat_slices; unfold batchSize; lia|]. split.
  - unfold slices, batchSize. apply Forall_forall. intros batch Hin.
    apply list_elem_of_In, in_map_iff in Hin as (k & <- & Hk).
    apply in_seq in Hk. rewrite length_take, length_drop.
    change (25 - 1) with 24 in Hk.
    pose proof (Nat.div_mod_eq (length names + 24) 25) as Hdiv.
    pose proof (Nat.mod_upper_bound (length names + 24) 25) as Hmod.
    split; [|lia].
    assert (k * 25 < length names) by lia. lia.
  - unfold slices, batchSize. by rewrite length_map, length_seq.
Qed.

End Batches.

(** ** The search orchestrator *)

Section Orchestrator.
Import Api Async TaskFacts PatternSearch Handlers.
Context (rx : RegExp.Engine).
Local Opaque findElementsByPattern.

Lemma exec_exact_hit (server : Server) (st : State) (data : ElementDetail) :
  Js.isEmpty (Js.trim (searchTerm st)) = false →
  server _ (GetDataElement (Js.trim (searchTerm st))) = Ok data →
  exec server (handleSearch rx st) st [] =
  (tt,
   {| searchTerm := searchTerm st;
      loading := false;
      error := None;
      element := Some data;
      recentSearches :=
        if bool_decide (Js.trim (searchTerm st) ∈ recentSearches st)
        then recentSearches st
        else take 10 (Js.trim (searchTerm st) :: recentSearches st);
      matchingElements := [];
      isPartialSearch := false;
      loadingState := loadingState st |},
   [call (GetDataElement (Js.trim (searchTerm st)))]).
Proof.
  intros Hq Hhit. unfold handleSearch, handlePartialSearch.
  rewrite Hq. simpl. rewrite Hhit. simpl.
  case_bool_decide; reflexivity.
Qed.

(** X11. An exact hit: the service is asked once, for the trimmed query,
    and no pattern search runs; the element is shown, nothing is loading,
    no error and no matching elements are left, and the trimmed query is
    put in front of the recent searches unless it is already there. *)
Theorem exact_hit (server : Server) (st : State) (data : ElementDetail) :
  Js.isEmpty (Js.trim (searchTerm st)) = false →
  server _ (GetDataElement (Js.trim (searchTerm st))) = Ok data →
  let run := exec server (handleSearch rx st) st [] in
  run.2 = [call (GetDataElement (Js.trim (searchTerm st)))] ∧
  display run.1.2 = (false, None, Some data, [], false) ∧
  recentSearches run.1.2 =
    (if bool_decide (Js.trim (searchTerm st) ∈ recentSearches st)
     then recentSearches st
     else take 10 (Js.trim (searchTerm st) :: recentSearches st)) ∧
  searchTerm run.1.2 = searchTerm st ∧ loadingState run.1.2 = loadingState st.
Proof.
  intros Hq Hhit. cbv zeta. by rewrite (exec_exact_hit server st data Hq Hhit).
Qed.

Lemma exec_exact_failure (server : Server) (st : State) (message : string) :
  Js.isEmpty (Js.trim (searchTerm st)) = false →
  server _ (GetDataElement (Js.trim (searchTerm st))) = Failed message →
  exec server (handleSearch rx st) st [] =
  (tt,
   {| searchTerm := searchTerm st;
      loading := false;
      error := Some ("Error searching for elements: " ++ message)%string;
      element := None;
      recentSearches := recentSearches st;
      matchingElements := [];
      isPartialSearch := true;
      loadingState := loadingState st |},
   [call (GetDataElement (Js.trim (searchTerm st)))]).
Proof.
  intros Hq Hfail. unfold handleSearch, handlePartialSearch.
  rewrite Hq. simpl. rewrite Hfail. reflexivity.
Qed.

(** X12. When the exact lookup fails on the network, the search stops
    there: one request, the error message with the cause, nothing
    loading, no element, no matching elements, the recent searches
    untouched. *)
Theorem exact_lookup_failure (server : Server) (st : State) (message : string) :
  Js.isEmpty (Js.trim (searchTerm st)) = false →
  server _ (GetDataElement (Js.trim (searchTerm st))) = Failed message →
  let run := exec server (handleSearch rx st) st [] in
  run.2 = [call (GetDataElement (Js.trim (searchTerm st)))] ∧
  display run.1.2 =
    (false, Some ("Error searching for elements: " ++ message)%string, None, [], true) ∧
  recentSearches run.1.2 = recentSearches st ∧
  searchTerm run.1.2 = searchTerm st ∧ loadingState run.1.2 = loadingState st.
Proof.
  intros Hq Hfail. cbv zeta. by rewrite (exec_exact_failure server st message Hq Hfail).
Qed.

Lemma exec_search_miss (server : Server) (st : State) :
  Js.isEmpty (Js.trim (searchTerm st)) = false →
  server _ (GetDataElement (Js.trim (searchTerm st))) = NotOk →
  ∃ st1,
    sameButProgress
      (setElement None (setMatchingElements [] (setIsPartialSearch true
         (setError None (setLoading true st))))) st1 ∧
    (exec server (handleSearch rx st) st []).1.2 =
    (exec server
       (let matchingElements :=
          result server (findElementsByPattern rx (Js.trim (searchTerm st))) in
        if length matchingElements =? 0 then
          upd (setError (Some (noMatchMessage (searchTerm st))));;
          upd (setLoading false);;
          upd (setLoading false)
        else
          upd (setMatchingElements matchingElements);;
          match matchingElements with
          | [only] =>
              perfectMatch ← fetch (GetDataElement (mr_name only));
              match perfectMatch with
              | Ok data =>
                  upd (setElement (Some data));;
                  upd (setIsPartialSearch false);;
                  (if negb (bool_decide (mr_name only ∈ recentSearches st))
                   then upd (setRecentSearches (remember (mr_name only)))
                   else skip)
              | NotOk => skip
              | Failed _ => skip
              end
          | _ => skip
          end;;
          upd (setLoading false))
       st1
       (exec server (findElementsByPattern rx (Js.trim (searchTerm st)))
          (setElement None (setMatchingElements [] (setIsPartialSearch true
             (setError None (setLoading true st)))))
          [call (GetDataElement (Js.trim (searchTerm st)))]).2).1.2.
Proof.
  intros Hq Hmiss. eexists. split; [|].
  2: { unfold handleSearch, handlePartialSearch. rewrite Hq. simpl. rewrite Hmiss.
       rewrite exec_bind, exec_result. reflexivity. }
  apply findElementsByPattern_frame.
Qed.




(** X15. A pattern search that finds exactly one element fetches that
    element. When the fetch succeeds the element is shown in place of the
    list and its name, not the query, goes to the recent searches; when it
    does not, the list of one stays on the page and no error is raised. *)
Theorem single_match_is_selected (server : Server) (st : State) (only : MatchRecord) :
  Js.isEmpty (Js.trim (searchTerm st)) = false →
  server _ (GetDataElement (Js.trim (searchTerm st))) = NotOk →
  result server (findElementsByPattern rx (Js.trim (searchTerm st))) = [only] →
  let st' := finalState server (handleSearch rx st) st in
  loading st' = false ∧ error st' = None ∧ matchingElements st' = [only] ∧
  match server _ (GetDataElement (mr_name only)) with
  | Ok data =>
      element st' = Some data ∧ isPartialSearch st' = false ∧
      recentSearches st' =
        (if bool_decide (mr_name only ∈ recentSearches st) then recentSearches st
         else take 10 (mr_name only :: recentSearches st))
  | _ =>
      element st' = None ∧ isPartialSearch st' = true ∧
      recentSearches st' = recentSearches st
  end.
Proof.
  intros Hq Hmiss Hone. cbv zeta. unfold finalState.
  destruct (exec_search_miss server st Hq Hmiss) as (st1 & Hframe & ->).
  destruct Hframe as (_ & Hl & He & Hel & Hr & Hm & Hp). simpl in Hl, He, Hel, Hr, Hm, Hp.
  rewrite Hone. simpl.
  destruct (server _ (GetDataElement (mr_name only))); simpl;
    repeat (case_bool_decide; simpl); rewrite ?He, ?Hel, ?Hr, ?Hp; done.
Qed.

(** X16. Clicking a match whose detail the service returns ends in the
    state, and sends the request, of typing the element name into the box
    and searching it, when the page was not loading and showed no error. *)
Theorem match_click_is_search (server : Server) (st : State) (m : MatchRecord)
    (data : ElementDetail) :
  server _ (GetDataElement (mr_name m)) = Ok data →
  Js.trim (mr_name m) = mr_name m →
  Js.isEmpty (mr_name m) = false →
  loading st = false → error st = None →
  let typed := setSearchTerm (mr_name m) st in
  exec server (onMatchClick st m) st [] = exec server (handleSearch rx typed) typed [].
Proof.
  intros Hok Htrim Hne Hl He. cbv zeta.
  rewrite (exec_exact_hit server (setSearchTerm (mr_name m) st) data);
    simpl; rewrite ?Htrim; [|done..].
  unfold onMatchClick. simpl. rewrite Hok. simpl.
  destruct st. simpl in *. subst. case_bool_decide; reflexivity.
Qed.

(** X17. Clicking a match whose detail the service does not return clears
    the list and reports nothing: from a page that was not loading and
    showed neither an error nor an element, the page ends on the search
    tips alone, with the match's name in the search box. *)
Theorem match_click_failure (server : Server) (st : State) (m : MatchRecord) :
  delivered (server _ (GetDataElement (mr_name m))) = false →
  Js.isEmpty (mr_name m) = false →
  loading st = false → error st = None → element st = None →
  let st' := finalState server (onMatchClick st m) st in
  searchTerm st' = mr_name m ∧
  showsTips st' = true ∧ showsElement st' = false ∧
  showsMatches st' = false ∧ showsError st' = false ∧
  recentSearches st' = recentSearches st.
Proof.
  intros Hfail Hne Hl He Hel. cbv zeta. unfold finalState, onMatchClick. simpl.
  destruct (server _ (GetDataElement (mr_name m))) as [data| |message]; simpl.
  - done.
  - unfold showsTips, showsElement, showsMatches, showsError. simpl.
    by rewrite Hl, He, Hel, Hne.
  - unfold showsTips, showsElement, showsMatches, showsError. simpl.
    by rewrite Hl, He, Hel, Hne.
Qed.

Lemma updatesAll_impl {St R} (P Q : (St → St) → Prop) (t : Task St R) :
  (∀ f, P f → Q f) → updatesAll P t → updatesAll Q t.
Proof.
  intros HPQ. induction t as [r|g k IH|A req k IH|A reqs k IH]; simpl.
  - done.
  - intros [Hg Hk]. split; [by apply HPQ|by apply IH].
  - intros Hk o. by apply IH.
  - intros Hk os. by apply IH.
Qed.

Lemma handleSearch_keeps_searchTerm (view : State) :
  updatesAll (fun f => ∀ s, searchTerm (f s) = searchTerm s) (handleSearch rx view).
Proof.
  unfold handleSearch, handlePartialSearch.
  destruct (Js.isEmpty (Js.trim (searchTerm view))); simpl; [done|].
  do 5 (split; [done|]). intros [data| |message]; simpl.
  - do 2 (split; [done|]). case_bool_decide; simpl; by repeat split.
  - apply updatesAll_bind.
    + apply (updatesAll_impl progressOnly); [|apply findElementsByPattern_progressOnly].
      intros f Hf s. apply Hf.
    + intros found. destruct (length found =? 0); simpl; [by repeat split|].
      split; [done|]. destruct found as [|only [|other more]]; simpl; try by repeat split.
      intros [data| |message]; simpl; try by repeat split.
      do 2 (split; [done|]). case_bool_decide; simpl; by repeat split.
  - by repeat split.
Qed.

(** X18. A click on a recent search puts the clicked term into the search
    box, but the search that then runs is the one of the query that was in
    the box before the click: it sends the requests of that query, and
    none at all when the box was blank. *)
Theorem recent_search_runs_old_query (server : Server) (view : State) (term : string)
    (log : list Call) :
  let run := exec server (handleRecentSearch rx view term) view log in
  searchTerm run.1.2 = term ∧
  run.2 = (exec server (handleSearch rx view) view log).2 ∧
  (forallb Js.isSpace (Js.chars (searchTerm view)) = true →
   run = (tt, setSearchTerm term view, log)).
Proof.
  cbv zeta. unfold handleRecentSearch. simpl. split; [|split].
  - change term with (searchTerm (setSearchTerm term view)) at 2.
    apply (exec_updatesAll (fun f => ∀ s, searchTerm (f s) = searchTerm s)
             (fun s s' => searchTerm s' = searchTerm s) server (handleSearch rx view)).
    + done.
    + intros f s s' Hf Hs. by rewrite Hf.
    + apply handleSearch_keeps_searchTerm.
    + done.
  - rewrite (exec_log server _ (setSearchTerm term view) view log).
    by rewrite (exec_log server _ view view log).
  - intros Hblank. unfold handleSearch. by rewrite (trim_blank _ Hblank).
Qed.

End Orchestrator.

(** ** What the aggregator finds, and in which order *)

Section AggregatorFacts.
Import RegExp WordFacts JsMap JsArray PatternSearch Matching.
Context (rx : RegExp.Engine).

Lemma names_afterWrites ws n :
  n ∈ mr_name <$> values (afterWrites empty ws) ↔ n ∈ mr_name <$> ws.
Proof.
  rewrite list_elem_of_fmap. split.
  - intros (r & -> & Hr). apply values_afterWrites in Hr.
    destruct (decide (mr_name r ∈ mr_name <$> ws)) as [|Hno]; [done|].
    apply lastWrite_None in Hno. congruence.
  - intros Hn. destruct (lastWrite n ws) as [r|] eqn:E.
    + destruct (lastWrite_found _ _ _ E) as [Hname _].
      exists r. split; [done|]. apply values_afterWrites. by rewrite Hname.
    + by apply lastWrite_None in E.
Qed.

Lemma elem_of_writes q m r :
  r ∈ writes rx q m ↔
  ∃ s es e, (s, es) ∈ m ∧ e ∈ es ∧
            nameMatches rx q e || descMatches rx q e = true ∧ r = matchRecord rx q s e.
Proof.
  unfold writes. rewrite list_elem_of_In, in_flat_map. split.
  - intros ([s es] & Hm & Hr). apply in_map_iff in Hr as (e & <- & He).
    apply list_elem_of_In, list_elem_of_filter in He as [Hyes He].
    exists s, es, e. by rewrite list_elem_of_In.
  - intros (s & es & e & Hm & He & Hyes & ->). exists (s, es).
    split; [by apply list_elem_of_In|].
    apply in_map, list_elem_of_In, list_elem_of_filter. done.
Qed.

Lemma elem_of_aggregate q m r :
  r ∈ aggregate rx q m → r ∈ writes rx q m.
Proof.
  unfold aggregate. rewrite (sort_perm lowerRelevance), scanBatch_writes.
  intros Hr. apply values_afterWrites, lastWrite_found in Hr as (_ & before & after & -> & _).
  apply elem_of_app. right. left.
Qed.






Lemma length_toLowerCase s : String.length (Js.toLowerCase s) = String.length s.
Proof. induction s as [|c s IH]; simpl; congruence. Qed.

Lemma prefix_refl s : String.prefix s s = true.
Proof. induction s as [|c s IH]; simpl; [done|]. by destruct (Ascii.ascii_dec c c). Qed.

Lemma descending_lookup l i j a b :
  descending l → l !! i = Some a → l !! j = Some b → i < j →
  (relevance b ≤ relevance a)%Z.
Proof.
  intros Hl Hi Hj Hij. unfold descending in Hl.
  rewrite <-(take_drop_middle l j b Hj) in Hl.
  apply (StronglySorted_app_1_elem_of _ _ _ a b Hl); [|left].
  apply list_elem_of_lookup. exists i. by rewrite lookup_take_lt.
Qed.

(** X20. In the result of the aggregator an element whose lower-cased
    name is the query, and that was matched by its name, has a relevance
    of at least 150, every element of another name has at most 125, and
    so the first stands before the second in the list. *)
Theorem exact_name_ranks_first (q : string) (m : list (string * list Element))
    (i j : nat) (r r' : MatchRecord) :
  aggregate rx q m !! i = Some r →
  aggregate rx q m !! j = Some r' →
  Js.toLowerCase (mr_name r) = q →
  matchType r ≠ descriptionOnly →
  Js.toLowerCase (mr_name r') ≠ q →
  (relevance r' ≤ 125 ∧ 150 ≤ relevance r)%Z ∧ i < j.
Proof.
  intros Hi Hj Hexact Hname Hother.
  assert (relevance r' ≤ 125 ∧ 150 ≤ relevance r)%Z as Hrel.
  { apply list_elem_of_lookup_2, elem_of_aggregate, elem_of_writes in Hi
      as (s & es & e & _ & _ & _ & ->).
    apply list_elem_of_lookup_2, elem_of_aggregate, elem_of_writes in Hj
      as (s' & es' & e' & _ & _ & _ & ->).
    simpl in *. unfold calculateRelevance. split.
    - apply String.eqb_neq in Hother. rewrite Hother.
      destruct (classify (nameMatches rx q e') _), (Js.startsWith _ _); lia.
    - subst q. rewrite String.eqb_refl. unfold Js.startsWith.
      rewrite prefix_refl, length_toLowerCase.
      destruct (classify (nameMatches rx _ e) _); [lia|lia|done]. }
  split; [done|].
  destruct (lt_eq_lt_dec i j) as [[Hlt|Heq]|Hgt]; [done|subst j; congruence|].
  pose proof (descending_lookup _ _ _ _ _ (sort_descending _) Hj Hi Hgt) as Hle.
  unfold aggregate in Hi, Hj. lia.
Qed.

End AggregatorFacts.

(** ** Singular and plural queries *)

Section Plural.
Import JsMap JsArray PatternSearch Matching.
Context (rx : RegExp.Engine).

Lemma endsWith_s_plural q : Js.endsWith_s (q ++ "s") = true.
Proof. induction q as [|c [|c' q] IH]; simpl in *; done. Qed.

Lemma dropLast_plural q : Js.dropLast (q ++ "s") = q.
Proof. induction q as [|c [|c' q] IH]; simpl in *; [done..|]. by rewrite IH. Qed.

Lemma searchWords_plural q :
  Js.endsWith_s q = false →
  searchWords q = [q; (q ++ "s")%string] ∧ searchWords (q ++ "s") = [(q ++ "s")%string; q].
Proof.
  intros Hq. unfold searchWords. by rewrite Hq, endsWith_s_plural, dropLast_plural.
Qed.

Lemma matches_plural q e :
  Js.endsWith_s q = false →
  nameMatches rx (q ++ "s") e = nameMatches rx q e ∧
  descMatches rx (q ++ "s") e = descMatches rx q e.
Proof.
  intros Hq. unfold nameMatches, descMatches.
  destruct (searchWords_plural q Hq) as [-> ->]. simpl.
  rewrite !orb_false_r. split; apply orb_comm.
Qed.

Lemma writes_plural q m :
  Js.endsWith_s q = false →
  Forall2 sameButRelevance (writes rx q m) (writes rx (q ++ "s") m).
Proof.
  intros Hq. unfold writes.
  induction m as [|[s es] m IH]; simpl; [constructor|].
  apply Forall2_app; [|done]. clear IH.
  induction es as [|e es IH]; simpl; [constructor|].
  rewrite !filter_cons. destruct (matches_plural q e Hq) as [Hn Hd].
  rewrite Hn, Hd. case_decide; [|done]. simpl. constructor; [|done].
  unfold sameButRelevance. simpl. by rewrite Hn, Hd.
Qed.

Lemma lastWrite_sameButRelevance n ws ws' :
  Forall2 sameButRelevance ws ws' →
  option_Forall2 sameButRelevance (lastWrite n ws) (lastWrite n ws').
Proof.
  induction 1 as [|r r' ws ws' Hr _ IH]; simpl; [constructor|].
  destruct IH as [a b Hab|]; [by constructor|].
  pose proof Hr as (Hn & _). rewrite Hn.
  destruct (String.eqb n (mr_name r)); by constructor.
Qed.

Lemma names_sameButRelevance ws ws' :
  Forall2 sameButRelevance ws ws' → mr_name <$> ws' = mr_name <$> ws.
Proof.
  induction 1 as [|r r' ws ws' Hr _ IH]; [done|].
  rewrite !fmap_cons. destruct Hr as [-> _]. by rewrite IH.
Qed.

(** X21. A query that does not end in "s" and the same query with an "s"
    added find the same elements: the two results list the same names, and
    the two records of one name agree in everything but the relevance. *)
Theorem plural_query_finds_same (q : string) (m : list (string * list Element)) :
  Js.endsWith_s q = false →
  (∀ n, n ∈ mr_name <$> aggregate rx (q ++ "s") m ↔ n ∈ mr_name <$> aggregate rx q m) ∧
  (∀ r r', r ∈ aggregate rx q m → r' ∈ aggregate rx (q ++ "s") m →
           mr_name r' = mr_name r → sameButRelevance r r').
Proof.
  intros Hq. pose proof (writes_plural q m Hq) as Hws. split.
  - intros n. unfold aggregate.
    rewrite !(sort_perm lowerRelevance), !scanBatch_writes, !names_afterWrites.
    by rewrite (names_sameButRelevance _ _ Hws).
  - intros r r'. unfold aggregate.
    rewrite !(sort_perm lowerRelevance), !scanBatch_writes, !values_afterWrites.
    intros Hr Hr' Hn. rewrite Hn in Hr'.
    pose proof (lastWrite_sameButRelevance (mr_name r) _ _ Hws) as Hlast.
    rewrite Hr, Hr' in Hlast. by inversion Hlast.
Qed.

End Plural.

(** ** The search of the first revision *)

Section ApiSearchFacts.
Import Api Async JsArray ApiSearch ApiHandlers Retrieval.
Local Opaque Promise_all.

Lemma exec_api_search_list (server : Server) (st : State) (hits : list SearchHit) :
  Js.isEmpty (Js.trim (searchTerm st)) = false →
  server _ (GetDataElement (Js.trim (searchTerm st))) = NotOk →
  server _ (SearchElements (Js.trim (searchTerm st))) = Ok (Some hits) →
  hits ≠ [] →
  exec server (handleSearch st) st [] =
  (tt,
   {| searchTerm := searchTerm st;
      loading := false;
      error := None;
      element := None;
      matchingElements :=
        sort lowerScore
          (omap id (map (resolve server)
                      (map (elementDetail (Js.trim (searchTerm st))) hits)));
      isPartialSearch := true;
      recentSearches :=
        if bool_decide (Js.trim (searchTerm st) ∈ recentSearches st)
        then recentSearches st
        else take 10 (Js.trim (searchTerm st) :: recentSearches st) |},
   listCalls (Js.trim (searchTerm st)) hits).
Proof.
  intros Hq Hmiss Hhits Hsome. unfold handleSearch. rewrite Hq. simpl.
  rewrite Hmiss. simpl. rewrite Hhits.
  destruct hits as [|hit hits]; [done|].
  rewrite exec_bind, exec_Promise_all. unfold updateRecentSearches, listCalls.
  rewrite <-!(map_cons (elementDetail (Js.trim (searchTerm st))) hit hits).
  assert (∀ l, pendingRequests (map (elementDetail (Js.trim (searchTerm st))) l) =
               map (fun hit => GetDataElement (hit_name hit)) l) as ->.
  { induction l as [|h l IH]; [done|]. rewrite !map_cons.
    unfold pendingRequests in *. simpl. f_equal. exact IH. }
  rewrite (map_map (fun hit => GetDataElement (hit_name hit)) call).
  case_bool_decide; reflexivity.
Qed.

Lemma names_of_details (server : Server) q hits :
  m_name <$> omap id (map (resolve server) (map (elementDetail q) hits)) =
  hit_name <$> detailed server hits.
Proof.
  unfold detailed. induction hits as [|hit hits IH]; [done|].
  rewrite !map_cons, filter_cons. unfold resolve at 1, elementDetail at 1.
  destruct (server _ (GetDataElement (hit_name hit))); simpl.
  - f_equal. apply IH.
  - apply IH.
  - apply IH.
Qed.

(** X22. When the exact lookup misses and the full-text search lists
    hits, the search of the first revision requests the detail of every
    hit, in the order of the hits, and lists exactly the hits whose detail
    it got; a hit whose detail fetch fails is dropped without an error.
    The query goes to the recent searches whatever the list holds. *)
Theorem api_search_lists_detailed_hits (server : Server) (st : State)
    (hits : list SearchHit) :
  Js.isEmpty (Js.trim (searchTerm st)) = false →
  server _ (GetDataElement (Js.trim (searchTerm st))) = NotOk →
  server _ (SearchElements (Js.trim (searchTerm st))) = Ok (Some hits) →
  hits ≠ [] →
  let run := exec server (handleSearch st) st [] in
  run.2 = listCalls (Js.trim (searchTerm st)) hits ∧
  m_name <$> matchingElements run.1.2 ≡ₚ hit_name <$> detailed server hits ∧
  isPartialSearch run.1.2 = true ∧ loading run.1.2 = false ∧
  error run.1.2 = None ∧ element run.1.2 = None ∧
  recentSearches run.1.2 =
    (if bool_decide (Js.trim (searchTerm st) ∈ recentSearches st)
     then recentSearches st
     else take 10 (Js.trim (searchTerm st) :: recentSearches st)).
Proof.
  intros Hq Hmiss Hhits Hsome. cbv zeta.
  rewrite (exec_api_search_list server st hits Hq Hmiss Hhits Hsome). simpl.
  split; [done|]. split; [|done].
  by rewrite (sort_perm lowerScore), names_of_details.
Qed.

(** X23. When the full-text search lists hits and the detail fetch of
    every one of them fails, the search ends on an empty page: no list,
    no element, no error message and no search tips. *)
Theorem api_search_without_details (server : Server) (st : State)
    (hits : list SearchHit) :
  Js.isEmpty (Js.trim (searchTerm st)) = false →
  server _ (GetDataElement (Js.trim (searchTerm st))) = NotOk →
  server _ (SearchElements (Js.trim (searchTerm st))) = Ok (Some hits) →
  hits ≠ [] →
  detailed server hits = [] →
  let st' := finalState server (handleSearch st) st in
  matchingElements st' = [] ∧
  showsMatches st' = false ∧ showsElement st' = false ∧
  showsError st' = false ∧ showsTips st' = false.
Proof.
  intros Hq Hmiss Hhits Hsome Hnone. cbv zeta. unfold finalState.
  rewrite (exec_api_search_list server st hits Hq Hmiss Hhits Hsome). simpl.
  assert (omap id (map (resolve server)
                     (map (elementDetail (Js.trim (searchTerm st))) hits)) = []) as ->.
  { apply (fmap_nil_inv m_name). by rewrite names_of_details, Hnone. }
  unfold showsTips. simpl. done.
Qed.

End ApiSearchFacts.

(** ** The theorems at work on the catalog *)

(** X11, witness: the query " subjectkey " against the catalog. *)
Lemma exact_hit_witness :
  let st := Catalog.idle " subjectkey " in
  Js.isEmpty (Js.trim (PatternSearch.searchTerm st)) = false ∧
  (Async.exec Catalog.server (PatternSearch.handleSearch Catalog.rx st) st []).2 =
    [Api.call (Api.GetDataElement "subjectkey")].
Proof.
  intros st. split; [reflexivity|].
  exact (proj1 (exact_hit Catalog.rx Catalog.server st
                  (Catalog.detail "subjectkey" "The NDAR Global Unique Identifier")
                  eq_refl eq_refl)).
Defined.

(** X12, witness: the query "tap" without a network. *)
Lemma exact_lookup_failure_witness :
  let st := Catalog.idle "tap" in
  Listing.offline _ (Api.GetDataElement "tap") = Api.Failed "Failed to fetch" ∧
  PatternSearch.display
    (Async.exec Listing.offline (PatternSearch.handleSearch Catalog.rx st) st []).1.2 =
    (false, Some "Error searching for elements: Failed to fetch", None, [], true).
Proof.
  intros st. split; [reflexivity|].
  exact (proj1 (proj2 (exact_lookup_failure Catalog.rx Listing.offline st
                         "Failed to fetch" eq_refl eq_refl))).
Defined.


(** X15, witness: "taps" is found in the description of "tap_count"
    only, and "tap_count" has a detail. *)
Lemma single_match_is_selected_witness :
  let st := Catalog.idle "taps" in
  let only :=
    Listing.record "tap_count" "Number of taps made" "ndar_subject01"
      PatternSearch.descriptionOnly 20 in
  Async.result Catalog.server (PatternSearch.findElementsByPattern Catalog.rx "taps") = [only] ∧
  PatternSearch.matchingElements
    (Async.finalState Catalog.server (PatternSearch.handleSearch Catalog.rx st) st) = [only].
Proof.
  intros st only.
  assert (Async.result Catalog.server (PatternSearch.findElementsByPattern Catalog.rx "taps")
          = [only]) as Hone by (vm_compute; reflexivity).
  split; [exact Hone|].
  exact (proj1 (proj2 (proj2
    (single_match_is_selected Catalog.rx Catalog.server st only eq_refl eq_refl Hone)))).
Defined.

(** X16, witness: a click on "tap_count" in the list of the query "taps". *)
Lemma match_click_is_search_witness :
  let st := Catalog.idle "taps" in
  let m :=
    Listing.record "tap_count" "Number of taps made" "ndar_subject01"
      PatternSearch.descriptionOnly 20 in
  let typed := PatternSearch.setSearchTerm "tap_count" st in
  Js.trim (PatternSearch.mr_name m) = PatternSearch.mr_name m ∧
  Async.exec Catalog.server (Handlers.onMatchClick st m) st [] =
  Async.exec Catalog.server (PatternSearch.handleSearch Catalog.rx typed) typed [].
Proof.
  intros st m typed. split; [reflexivity|].
  exact (match_click_is_search Catalog.rx Catalog.server st m
           (Catalog.detail "tap_count" "Number of taps made")
           eq_refl eq_refl eq_refl eq_refl eq_refl).
Defined.

(** X17, witness: a click on "interview_age", which has no detail. *)
Lemma match_click_failure_witness :
  let st := Catalog.idle "age" in
  let m :=
    Listing.record "interview_age" "Age in months at the time of the interview"
      "ndar_subject01" PatternSearch.descriptionOnly 15 in
  Handlers.delivered (Catalog.server _ (Api.GetDataElement (PatternSearch.mr_name m))) = false ∧
  Handlers.showsTips (Async.finalState Catalog.server (Handlers.onMatchClick st m) st) = true.
Proof.
  intros st m. split; [reflexivity|].
  exact (proj1 (proj2 (match_click_failure Catalog.server st m
                         eq_refl eq_refl eq_refl eq_refl eq_refl))).
Defined.


(** X20, witness: for the query "tap" the element "tap" stands before
    "taps_left". *)
Lemma exact_name_ranks_first_witness :
  let out := PatternSearch.aggregate Catalog.rx "tap" Catalog.tapStructures in
  let r := Listing.record "tap" "Tap speed" "motor01" PatternSearch.both 175 in
  let r' :=
    Listing.record "taps_left" "Taps, left hand" "motor01" PatternSearch.descriptionOnly 44 in
  out !! 0 = Some r ∧ out !! 1 = Some r' ∧
  ((PatternSearch.relevance r' ≤ 125 ∧ 150 ≤ PatternSearch.relevance r)%Z ∧ 0 < 1).
Proof.
  intros out r r'.
  assert (out !! 0 = Some r) as H0 by (vm_compute; reflexivity).
  assert (out !! 1 = Some r') as H1 by (vm_compute; reflexivity).
  split; [exact H0|]. split; [exact H1|].
  apply (exact_name_ranks_first Catalog.rx "tap" Catalog.tapStructures 0 1 r r' H0 H1).
  - reflexivity.
  - discriminate.
  - discriminate.
Defined.

(** X21, witness: "tap" and "taps". *)
Lemma plural_query_finds_same_witness :
  Js.endsWith_s "tap" = false ∧
  ("foot" ∈ PatternSearch.mr_name <$>
     PatternSearch.aggregate Catalog.rx "taps" Catalog.tapStructures ↔
   "foot" ∈ PatternSearch.mr_name <$>
     PatternSearch.aggregate Catalog.rx "tap" Catalog.tapStructures).
Proof.
  split; [reflexivity|].
  exact (proj1 (plural_query_finds_same Catalog.rx "tap" Catalog.tapStructures eq_refl) "foot").
Defined.

(** X22, witness: the query "visit" has no exact hit, and the full-text
    search lists three elements, one of them without a detail. *)
Lemma api_search_lists_detailed_hits_witness :
  let st := Catalog.idle1 "visit" in
  let hits := [Listing.hit "tap_count"; Listing.hit "retired"; Listing.hit "subjectkey"] in
  Listing.server _ (Api.SearchElements "visit") = Api.Ok (Some hits) ∧
  ApiSearch.m_name <$>
    ApiSearch.matchingElements
      (Async.exec Listing.server (ApiSearch.handleSearch st) st []).1.2
  ≡ₚ ["tap_count"; "subjectkey"].
Proof.
  intros st hits. split; [reflexivity|].
  assert (hits ≠ []) as Hsome by discriminate.
  exact (proj1 (proj2 (api_search_lists_detailed_hits Listing.server st hits
                         eq_refl eq_refl eq_refl Hsome))).
Defined.

(** X23, witness: the full-text search lists one element, and that
    element has no detail. *)
Lemma api_search_without_details_witness :
  let st := Catalog.idle1 "visit" in
  let hits := [Listing.hit "retired"] in
  ApiHandlers.detailed Listing.staleIndex hits = [] ∧
  ApiSearch.matchingElements
    (Async.finalState Listing.staleIndex (ApiSearch.handleSearch st) st) = [].
Proof.
  intros st hits. split; [reflexivity|].
  assert (hits ≠ []) as Hsome by discriminate.
  exact (proj1 (api_search_without_details Listing.staleIndex st hits
                  eq_refl eq_refl eq_refl Hsome eq_refl)).
Defined.
